(** * generate_ids.py: resolution of entity definitions

    A shallow embedding of [replays-parser/generate_ids.py]: the lookup of
    definition files ([find_file], [get_def_path]), the recursive collection
    of methods and properties ([collect_methods]) and the index assignment of
    [main] ([to_indexed_dict], the loop over the entity types).

    Conventions of the embedding:
    - a Python [str] is a [string], read as a sequence of code points below
      256; the order on strings is the code point order ([String.compare]);
    - a Python [dict] used as a map is a [gmap]; dictionary equality in
      Python ignores insertion order, and the only iteration over the
      member dictionaries goes through [sorted];
    - the file system is a finite map from paths to file contents, a file
      being either a well-formed XML document or something [ET.parse]
      rejects;
    - [print] appends an [Event] to the output of the call; the text of a
      line is kept as the constructor and the values it interpolates;
    - the list [visited] is shared by all the calls of one resolution and
      is threaded through them as state. *)

From Stdlib Require Import Ascii String.
From stdpp Require Import base option list gmap strings sorting.

Set Warnings "-register-all,-clear-no-such-hyp".

Local Open Scope string_scope.
Local Open Scope list_scope.

(** ** Python strings *)

Module Py.

(** [str.isspace] on one code point below 256. *)
Definition isspace (c : ascii) : bool :=
  let n := nat_of_ascii c in
  (((9 <=? n) && (n <=? 13)) || ((28 <=? n) && (n <=? 32))
   || (n =? 133) || (n =? 160))%nat.

Fixpoint lstrip (s : string) : string :=
  match s with
  | "" => ""
  | String c s' => if isspace c then lstrip s' else s
  end.

Fixpoint rstrip (s : string) : string :=
  match s with
  | "" => ""
  | String c s' =>
      match rstrip s' with
      | "" => if isspace c then "" else String c ""
      | r => String c r
      end
  end.

(** [s.strip()] *)
Definition strip (s : string) : string := rstrip (lstrip s).

(** [s.startswith(p)] *)
Definition startswith (p s : string) : bool := String.prefix p s.

(** [s.endswith(p)] *)
Definition endswith (p s : string) : bool :=
  String.prefix (String.rev p) (String.rev s).

(** [p in s] on strings: [p] occurs in [s]. *)
Fixpoint contains (p s : string) : bool :=
  String.prefix p s ||
  match s with
  | "" => false
  | String _ s' => contains p s'
  end.

(** [s.split(sep)] for a separator of one character. *)
Fixpoint split (sep : ascii) (s : string) : list string :=
  match s with
  | "" => [""]
  | String c s' =>
      if Ascii.eqb c sep then "" :: split sep s'
      else match split sep s' with
           | w :: ws => String c w :: ws
           | [] => [String c ""]
           end
  end.

(** The truth value of a string, and of a string or [None]. *)
Definition truthy (s : string) : bool :=
  match s with "" => false | _ => true end.

Definition truthy_opt (o : option string) : bool :=
  match o with Some s => truthy s | None => false end.

End Py.

(** ** [os.path] on POSIX *)

Module posixpath.

(** [os.path.join(a, *p)] *)
Definition join (a : string) (p : list string) : string :=
  fold_left
    (fun path b =>
       if Py.startswith "/" b then b
       else if negb (Py.truthy path) || Py.endswith "/" path then path +:+ b
       else path +:+ "/" +:+ b)
    p a.

(** One step of the loop of [normpath] over the components. *)
Definition norm_step (initial_slashes : nat) (new_comps : list string)
    (comp : string) : list string :=
  if bool_decide (comp = "") || bool_decide (comp = ".") then new_comps
  else if negb (bool_decide (comp = ".."))
          || ((initial_slashes =? 0)%nat && bool_decide (new_comps = []))
          || bool_decide (last new_comps = Some "..")
       then new_comps ++ [comp]
       else removelast new_comps.

(** [os.path.normpath(path)] *)
Definition normpath (path : string) : string :=
  if negb (Py.truthy path) then "."
  else
    let initial_slashes :=
      if Py.startswith "/" path then
        if Py.startswith "//" path && negb (Py.startswith "///" path)
        then 2 else 1
      else 0 in
    let comps := Py.split "/" path in
    let new_comps := fold_left (norm_step initial_slashes) comps [] in
    let path := String.concat "/" new_comps in
    let path :=
      fold_right String.append path (replicate initial_slashes "/") in
    if Py.truthy path then path else ".".

End posixpath.

(** ** XML trees of [xml.etree.ElementTree] *)

Inductive Element : Type :=
  Elem (tag : string) (text : option string) (children : list Element).

Definition tag (e : Element) : string :=
  match e with Elem t _ _ => t end.

Definition text (e : Element) : option string :=
  match e with Elem _ t _ => t end.

(** Iterating over an element yields its children in document order. *)
Definition children (e : Element) : list Element :=
  match e with Elem _ _ cs => cs end.

(** [e.findall(name)]: the direct children with that tag, in document order. *)
Definition findall (name : string) (e : Element) : list Element :=
  filter (fun c => tag c = name) (children e).

(** [e.find(name)]: the first direct child with that tag, or [None]. *)
Definition find (name : string) (e : Element) : option Element :=
  head (findall name e).

(** ** The file system *)

(** What is stored under a path that exists: a document [ET.parse] accepts,
    or anything else (malformed XML, a directory). *)
Inductive FileContent : Type :=
| Document (root : Element)
| Unparsable.

Inductive PyException : Type :=
| FileNotFoundError
| ParseError
| AttributeError.

(** The lines the script prints, one constructor per format string. *)
Inductive Event : Type :=
| DebugFound (filename p : string)
| DebugCouldNotFind (filename base_path : string)
| CycleDetected (def_path : string)
| WarningInterfaceNotFound (interface_name : string)
| DebugProcessing (name : string) (arg_count : nat) (detail_distance : bool)
| ErrorFailedToParse (def_path : string) (e : PyException)
| ProcessingEntity (ent_id : nat) (ent_name : string)
| ErrorNoDefFile (ent_name : string).

Global Instance PyException_eq_dec : EqDecision PyException.
Proof. solve_decision. Defined.

Global Instance Event_eq_dec : EqDecision Event.
Proof. solve_decision. Defined.

Section FileSystem.

Variable fs : gmap string FileContent.

(** [os.path.exists(p)] *)
Definition exists_ (p : string) : bool := bool_decide (is_Some (fs !! p)).

(** [ET.parse(p).getroot()] *)
Definition parse (p : string) : PyException + Element :=
  match fs !! p with
  | None => inl FileNotFoundError
  | Some Unparsable => inl ParseError
  | Some (Document root) => inr root
  end.

(** The candidate paths of [find_file], in the order they are tried. *)
Definition candidates (base_path filename : string)
    (search_subdirs : list string) : list string :=
  [ posixpath.join base_path [filename];
    posixpath.join base_path ["scripts"; filename];
    posixpath.join base_path ["res"; "scripts"; filename];
    posixpath.join base_path ["source"; "res"; "scripts"; filename] ]
  ++ flat_map
       (fun sub =>
          [ posixpath.join base_path [sub; filename];
            posixpath.join base_path ["scripts"; sub; filename];
            posixpath.join base_path ["res"; "scripts"; sub; filename];
            posixpath.join base_path ["source"; "res"; "scripts"; sub; filename] ])
       search_subdirs.

(** [find_file(base_path, filename, search_subdirs)]; the default [None]
    of [search_subdirs] is the empty list. Returns the path found and the
    line printed. *)
Definition find_file (base_path filename : string)
    (search_subdirs : list string) : option string * list Event :=
  let base_path := posixpath.normpath base_path in
  match List.find exists_ (candidates base_path filename search_subdirs) with
  | Some p => (Some p, [DebugFound filename p])
  | None => (None, [DebugCouldNotFind filename base_path])
  end.

(** [get_def_path(base_path, entity_name)] *)
Definition get_def_path (base_path entity_name : string)
    : option string * list Event :=
  find_file base_path (entity_name +:+ ".def")
    ["entity_defs"; "entity_defs/interfaces"].

End FileSystem.

(** ** Member descriptors and the result of a resolution *)

(** The value stored for a member: [{'type': p_type}] for a property,
    [{'args': args}] for a method. *)
Inductive Descriptor : Type :=
| DType (p_type : string)
| DArgs (args : list string).

Global Instance Descriptor_eq_dec : EqDecision Descriptor.
Proof. solve_decision. Defined.

Global Instance Descriptor_inhabited : Inhabited Descriptor :=
  populate (DArgs []).

(** The four keys of [results], in the order the dictionary is built and
    therefore iterated. *)
Inductive SectionKey : Type :=
| ClientMethods
| Properties
| CellMethods
| BaseMethods.

Global Instance SectionKey_eq_dec : EqDecision SectionKey.
Proof. solve_decision. Defined.

Definition key_name (k : SectionKey) : string :=
  match k with
  | ClientMethods => "ClientMethods"
  | Properties => "Properties"
  | CellMethods => "CellMethods"
  | BaseMethods => "BaseMethods"
  end.

Definition section_keys : list SectionKey :=
  [ClientMethods; Properties; CellMethods; BaseMethods].

(** The dictionary [results]: one member dictionary per key. *)
Record Results : Type := mkResults {
  client_methods : gmap string Descriptor;
  properties : gmap string Descriptor;
  cell_methods : gmap string Descriptor;
  base_methods : gmap string Descriptor
}.

(** [results[key]] *)
Definition getitem (r : Results) (k : SectionKey) : gmap string Descriptor :=
  match k with
  | ClientMethods => client_methods r
  | Properties => properties r
  | CellMethods => cell_methods r
  | BaseMethods => base_methods r
  end.

(** [results[key] = d], also the effect of updating [results[key]] in place. *)
Definition setitem (r : Results) (k : SectionKey) (d : gmap string Descriptor)
    : Results :=
  match k with
  | ClientMethods => mkResults d (properties r) (cell_methods r) (base_methods r)
  | Properties => mkResults (client_methods r) d (cell_methods r) (base_methods r)
  | CellMethods => mkResults (client_methods r) (properties r) d (base_methods r)
  | BaseMethods => mkResults (client_methods r) (properties r) (cell_methods r) d
  end.

(** The four empty dictionaries [results] starts from. The value returned
    when a cycle is detected holds four empty lists instead; the only use
    made of it is as the argument of [update], where an empty list and an
    empty dictionary do the same, so both are [empty_results]. *)
Definition empty_results : Results := mkResults ∅ ∅ ∅ ∅.

(** [d.update(other)]: the entries of [other] win. *)
Definition dict_update (d other : gmap string Descriptor)
    : gmap string Descriptor :=
  other ∪ d.

(** [for key in results: results[key].update(inherited[key])] *)
Definition merge_inherited (results inherited : Results) : Results :=
  fold_left
    (fun r key => setitem r key (dict_update (getitem r key) (getitem inherited key)))
    section_keys results.

(** ** Local definitions (step 2 of [collect_methods]) *)

(** [child.find('DetailDistance') is not None] *)
Definition has_detail_distance (child : Element) : bool :=
  bool_decide (is_Some (find "DetailDistance" child)).

(** [len(child.findall('Arg'))] *)
Definition arg_count (child : Element) : nat :=
  length (findall "Arg" child).

(** The flag [is_excluded] once both rules have been looked at. *)
Definition is_excluded (child : Element) : bool :=
  let is_excluded := false in
  let is_excluded := if has_detail_distance child then true else is_excluded in
  let is_excluded := if (arg_count child =? 0)%nat then true else is_excluded in
  is_excluded.

(** What is stored for a declaration that is not excluded. *)
Definition descriptor (section : SectionKey) (child : Element) : Descriptor :=
  match section with
  | Properties =>
      let type_tag := find "Type" child in
      let p_type :=
        match type_tag with
        | Some t =>
            match text t with
            | Some s => if Py.truthy s then Py.strip s else "UNKNOWN"
            | None => "UNKNOWN"
            end
        | None => "UNKNOWN"
        end in
      DType p_type
  | _ =>
      let args :=
        map (fun arg =>
               match text arg with
               | Some s => if Py.truthy s then Py.strip s else ""
               | None => ""
               end)
            (findall "Arg" child) in
      DArgs args
  end.

(** The body of [for child in xml_section], on the member dictionary of the
    section and the lines printed so far. *)
Definition process_child (def_path : string) (section : SectionKey)
    (st : gmap string Descriptor * list Event) (child : Element)
    : gmap string Descriptor * list Event :=
  let '(d, out) := st in
  let name := tag child in
  let out :=
    if bool_decide (section = ClientMethods) && Py.contains "Vehicle.def" def_path
    then out ++ [DebugProcessing name (arg_count child) (has_detail_distance child)]
    else out in
  if negb (is_excluded child)
  then (<[name := descriptor section child]> d, out)
  else (d, out).

(** The body of [for section in results.keys()]. *)
Definition process_section (def_path : string) (root : Element)
    (st : Results * list Event) (section : SectionKey) : Results * list Event :=
  let '(results, out) := st in
  match find (key_name section) root with
  | Some xml_section =>
      let '(d, out) :=
        fold_left (process_child def_path section) (children xml_section)
          (getitem results section, out) in
      (setitem results section d, out)
  | None => (results, out)
  end.

Definition local_definitions (def_path : string) (root : Element)
    (results : Results) : Results * list Event :=
  fold_left (process_section def_path root) section_keys (results, []).

(** ** Calls that share [visited] *)

(** A call reads and updates the shared list [visited] and prints; [None]
    is a recursion that has used up its fuel. *)
Definition M (A : Type) : Type :=
  list string → option (A * list string * list Event).

Definition ret {A} (a : A) : M A := fun visited => Some (a, visited, []).

Definition bind {A B} (m : M A) (k : A → M B) : M B :=
  fun visited =>
    match m visited with
    | None => None
    | Some (a, visited1, out1) =>
        match k a visited1 with
        | None => None
        | Some (b, visited2, out2) => Some (b, visited2, out1 ++ out2)
        end
    end.

Notation "'let*' x ':=' m 'in' k" := (bind m (fun x => k))
  (at level 10, x pattern, m at level 100, k at level 200).

Definition out_of_fuel {A} : M A := fun _ => None.

Definition print (e : Event) : M unit := fun visited => Some (tt, visited, [e]).

(** A call that prints and leaves [visited] alone. *)
Definition printing {A} (x : A * list Event) : M A :=
  fun visited => Some (x.1, visited, x.2).

(** [def_path in visited] *)
Definition visited_contains (def_path : string) : M bool :=
  fun visited => Some (bool_decide (def_path ∈ visited), visited, []).

(** [visited.append(def_path)] *)
Definition visited_append (def_path : string) : M unit :=
  fun visited => Some (tt, visited ++ [def_path], []).

(** [visited.pop()] *)
Definition visited_pop : M unit :=
  fun visited => Some (tt, removelast visited, []).

(** ** [collect_methods] *)

Section Collect.

Variable fs : gmap string FileContent.

(** The loop [for interface in implements.findall('Interface')], given the
    function to call at [RECURSION]. [results] is updated in place, so an
    exception leaves what was merged before it: the loop returns the
    dictionary together with the exception raised, if any. *)
Fixpoint implements_loop (rec : string → M Results) (base_path : string)
    (interfaces : list Element) (results : Results)
    : M (Results * option PyException) :=
  match interfaces with
  | [] => ret (results, None)
  | interface :: rest =>
      match text interface with
      | None => ret (results, Some AttributeError)
      | Some t =>
          let interface_name := Py.strip t in
          let* interface_def := printing (get_def_path fs base_path interface_name) in
          match interface_def with
          | Some p =>
              if Py.truthy p then
                let* inherited := rec p in
                implements_loop rec base_path rest (merge_inherited results inherited)
              else
                let* _ := print (WarningInterfaceNotFound interface_name) in
                implements_loop rec base_path rest results
          | None =>
              let* _ := print (WarningInterfaceNotFound interface_name) in
              implements_loop rec base_path rest results
          end
      end
  end.

(** The body of the [try] block. *)
Definition try_body (rec : string → M Results) (base_path def_path : string)
    (results : Results) : M (Results * option PyException) :=
  match parse fs def_path with
  | inl e => ret (results, Some e)
  | inr root =>
      let* (results, raised) :=
        match find "Implements" root with
        | Some implements =>
            implements_loop rec base_path (findall "Interface" implements) results
        | None => ret (results, None)
        end in
      match raised with
      | Some e => ret (results, Some e)
      | None =>
          let* results := printing (local_definitions def_path root results) in
          ret (results, None)
      end
  end.

(** [collect_methods(base_path, def_path, visited)], with [visited] the
    state of the call. *)
Fixpoint collect_methods (fuel : nat) (base_path def_path : string)
    : M Results :=
  match fuel with
  | 0 => out_of_fuel
  | S fuel' =>
      let* seen := visited_contains def_path in
      if (seen : bool) then
        let* _ := print (CycleDetected def_path) in
        ret empty_results
      else
        let* _ := visited_append def_path in
        let results := empty_results in
        let* (results, raised) :=
          try_body (collect_methods fuel' base_path) base_path def_path results in
        let* _ :=
          match raised with
          | Some e => print (ErrorFailedToParse def_path e)
          | None => ret tt
          end in
        let* _ := visited_pop in
        ret results
  end.

End Collect.

(** ** Index assignment and the loop over the entity types in [main] *)

(** [{"name": k, **data_dict[k]}]; a descriptor has no key ["name"]. *)
Record IndexedEntry : Type := mkEntry {
  name : string;
  details : Descriptor
}.

(** [sorted(keys)] on strings. *)
Definition sorted (keys : list string) : list string :=
  merge_sort String.le keys.

(** [enumerate(l)] *)
Definition enumerate {A} (l : list A) : list (nat * A) :=
  imap (fun i x => (i, x)) l.

(** [data_dict.keys()]; the order is lost, [sorted] is its only user. *)
Definition keys (data_dict : gmap string Descriptor) : list string :=
  (map_to_list data_dict).*1.

(** [to_indexed_dict(data_dict)] *)
Definition to_indexed_dict (data_dict : gmap string Descriptor)
    : gmap nat IndexedEntry :=
  let sorted_keys := sorted (keys data_dict) in
  list_to_map
    (map (fun '(i, k) => (i, mkEntry k (data_dict !!! k)))
         (enumerate sorted_keys)).

Record EntityJson : Type := mkEntityJson {
  id : nat;
  ent_name : string;
  clientMethods : gmap nat IndexedEntry;
  json_properties : gmap nat IndexedEntry;
  cellMethods : gmap nat IndexedEntry;
  baseMethods : gmap nat IndexedEntry
}.

(** The dictionary [entity_json] built from the result of the call. *)
Definition entity_json (ent_id : nat) (ent_name : string) (data : Results)
    : EntityJson :=
  mkEntityJson ent_id ent_name
    (to_indexed_dict (getitem data ClientMethods))
    (to_indexed_dict (getitem data Properties))
    (to_indexed_dict (getitem data CellMethods))
    (to_indexed_dict (getitem data BaseMethods)).

(** Step 2 of [main]: [for ent_id, ent_name in entity_types.items()].
    [full_data] is keyed by [str(ent_id)], kept here as the number. Every
    call of [collect_methods] gets a list [visited] of its own; the fuel is
    the number of files plus one, which the recursion never exceeds. *)
Fixpoint entities_loop (fs : gmap string FileContent) (game_path : string)
    (entity_types : list (nat * string)) (full_data : gmap nat EntityJson)
    : option (gmap nat EntityJson * list Event) :=
  match entity_types with
  | [] => Some (full_data, [])
  | (ent_id, ent_name) :: rest =>
      let out0 := [ProcessingEntity ent_id ent_name] in
      let '(def_path, out1) := get_def_path fs game_path ent_name in
      match def_path with
      | Some p =>
          if Py.truthy p then
            match collect_methods fs (S (size fs)) game_path p [] with
            | None => None
            | Some (data, _, out2) =>
                match entities_loop fs game_path rest
                        (<[ent_id := entity_json ent_id ent_name data]> full_data) with
                | None => None
                | Some (full_data', out3) =>
                    Some (full_data', out0 ++ out1 ++ out2 ++ out3)
                end
            end
          else
            match entities_loop fs game_path rest full_data with
            | None => None
            | Some (full_data', out3) =>
                Some (full_data', out0 ++ out1 ++ [ErrorNoDefFile ent_name] ++ out3)
            end
      | None =>
          match entities_loop fs game_path rest full_data with
          | None => None
          | Some (full_data', out3) =>
              Some (full_data', out0 ++ out1 ++ [ErrorNoDefFile ent_name] ++ out3)
          end
      end
  end.

(** ** Notions used to state the properties *)

(** A call that leaves [visited] as it found it. *)
Definition keeps_visited {A} (m : M A) : Prop :=
  ∀ visited a visited' out, m visited = Some (a, visited', out) → visited' = visited.

(** [m2] returns whatever [m1] returns. *)
Definition M_le {A} (m1 m2 : M A) : Prop :=
  ∀ visited x, m1 visited = Some x → m2 visited = Some x.

(** The local declarations of a section: the children of the first element
    of the root that carries the name of the section. *)
Definition local_decls (section : SectionKey) (root : Element) : list Element :=
  match find (key_name section) root with
  | Some xml_section => children xml_section
  | None => []
  end.

(** What [process_child] does to the member dictionary. *)
Definition add_decl (section : SectionKey) (d : gmap string Descriptor)
    (child : Element) : gmap string Descriptor :=
  if is_excluded child then d else <[tag child := descriptor section child]> d.

(** The last declaration of [n] among [decls] that is not excluded. *)
Definition surviving (n : string) (decls : list Element) : option Element :=
  last (filter (fun c => tag c = n ∧ is_excluded c = false) decls).

(** The last entry of a list of lookups that has a value. *)
Definition latest {A} (l : list (option A)) : option A :=
  fold_left (fun acc o => match o with Some x => Some x | None => acc end) l None.

(** [d] is what some parsed file of [fs] declares for [n] in [section], in
    a declaration that is not excluded. *)
Definition declared (fs : gmap string FileContent) (section : SectionKey)
    (n : string) (d : Descriptor) : Prop :=
  ∃ path root child,
    fs !! path = Some (Document root) ∧
    child ∈ local_decls section root ∧
    tag child = n ∧
    arg_count child ≠ 0 ∧
    has_detail_distance child = false ∧
    d = descriptor section child.

Section Notions.

Variable fs : gmap string FileContent.

(** The files that exist and are not on the list. Each call that gets as
    far as parsing an existing file takes one of them away. *)
Definition remaining (visited : list string) : nat :=
  size (dom fs ∖ list_to_set visited).

(** The dictionaries a call returns, for the fuel that always suffices. *)
Definition resolve (base_path def_path : string) (visited : list string)
    : Results :=
  match collect_methods fs (S (size fs)) base_path def_path visited with
  | Some (results, _, _) => results
  | None => empty_results
  end.

(** The [Interface] elements of a definition, in document order. *)
Definition interfaces_of (root : Element) : list Element :=
  match find "Implements" root with
  | Some implements => findall "Interface" implements
  | None => []
  end.

(** [interface.text] is a string, so that [strip] does not raise. *)
Definition has_text (interface : Element) : bool :=
  bool_decide (is_Some (text interface)).

(** The interfaces the loop gets through: those before the first one
    without text. *)
Fixpoint until_no_text (interfaces : list Element) : list Element :=
  match interfaces with
  | [] => []
  | interface :: rest =>
      if has_text interface then interface :: until_no_text rest else []
  end.

(** The path at which the loop calls [collect_methods] for an interface:
    what [get_def_path] returns for its stripped text, when that is a
    non-empty string. *)
Definition interface_def (base_path : string) (interface : Element)
    : option string :=
  match text interface with
  | Some t =>
      match (get_def_path fs base_path (Py.strip t)).1 with
      | Some p => if Py.truthy p then Some p else None
      | None => None
      end
  | None => None
  end.

(** What an interface hands to the merge. *)
Definition inherited_from (base_path : string) (visited : list string)
    (interface : Element) : Results :=
  match interface_def base_path interface with
  | Some p => resolve base_path p visited
  | None => empty_results
  end.

Definition merge_interfaces (base_path : string) (visited : list string)
    (interfaces : list Element) (results : Results) : Results :=
  fold_left
    (fun r interface => merge_inherited r (inherited_from base_path visited interface))
    interfaces results.

(** One level of the resolution, the interfaces being resolved already. *)
Definition resolve_step (base_path def_path : string) (visited : list string)
    : Results :=
  if bool_decide (def_path ∈ visited) then empty_results
  else
    match parse fs def_path with
    | inl _ => empty_results
    | inr root =>
        let inherited :=
          merge_interfaces base_path (visited ++ [def_path])
            (until_no_text (interfaces_of root)) empty_results in
        if forallb has_text (interfaces_of root)
        then (local_definitions def_path root inherited).1
        else inherited
    end.

End Notions.

(** The loop over the entity types runs to its end, and the entry of
    every entity whose definition file is found is the one built from its
    own resolution. *)
Definition every_entity_resolved (fs : gmap string FileContent) : Prop :=
  ∀ game_path entity_types full_data,
    ∃ full_data' out,
      entities_loop fs game_path entity_types full_data = Some (full_data', out) ∧
      (NoDup entity_types.*1 →
       ∀ ent_id ent_name p,
         (ent_id, ent_name) ∈ entity_types →
         (get_def_path fs game_path ent_name).1 = Some p →
         Py.truthy p = true →
         full_data' !! ent_id =
         Some (entity_json ent_id ent_name (resolve fs game_path p []))).

(** ** Definition files used as examples *)

(** [<name><Arg>a1</Arg>...</name>] *)
Definition method (name : string) (args : list string) : Element :=
  Elem name None (map (fun a => Elem "Arg" (Some a) []) args).

(** [<name><Type>t</Type></name>] *)
Definition property (name t : string) : Element :=
  Elem name None [Elem "Type" (Some t) []].

(** [<Implements><Interface>n1</Interface>...</Implements>] *)
Definition implements (names : list string) : Element :=
  Elem "Implements" None (map (fun n => Elem "Interface" (Some n) []) names).

Definition def_file (parts : list Element) : FileContent :=
  Document (Elem "root" None parts).

Definition entity_path (name : string) : string :=
  "/game/scripts/entity_defs/" +:+ name +:+ ".def".

Definition interface_path (name : string) : string :=
  "/game/scripts/entity_defs/interfaces/" +:+ name +:+ ".def".

(** Entity [Tank] implements [Shared], which declares the property
    [health] of type [FLOAT]. *)
Module Tank.
Definition health : Element := property "health" "FLOAT".
Definition fs : gmap string FileContent :=
  {[ entity_path "Tank" := def_file [implements ["Shared"]];
     interface_path "Shared" := def_file [Elem "Properties" None [health]] ]}.
End Tank.

(** Entity [Vehicle] implements [Damageable], which declares
    [takeDamage(INT32)], and declares [takeDamage(INT32, STRING)] and
    [ping()] itself. *)
Module Vehicle.
Definition root : Element :=
  Elem "root" None
    [implements ["Damageable"];
     Elem "ClientMethods" None
       [method "takeDamage" ["INT32"; "STRING"]; method "ping" []]].
Definition fs : gmap string FileContent :=
  {[ entity_path "Vehicle" := Document root;
     interface_path "Damageable" :=
       def_file [Elem "ClientMethods" None [method "takeDamage" ["INT32"]]] ]}.
(** What the call for [Vehicle] returns and prints. *)
Definition result : Results :=
  setitem empty_results ClientMethods
    {[ "takeDamage" := DArgs ["INT32"; "STRING"] ]}.
Definition out : list Event :=
  [DebugFound "Damageable.def" (interface_path "Damageable");
   DebugProcessing "takeDamage" 2 false;
   DebugProcessing "ping" 0 false].
End Vehicle.

(** One file that declares [m] three times in [ClientMethods]: with one
    argument, with two, and with none. *)
Module Duplicates.
Definition root : Element :=
  Elem "root" None
    [Elem "ClientMethods" None
       [method "m" ["INT32"]; method "m" ["STRING"; "FLOAT"]; method "m" []]].
Definition fs : gmap string FileContent :=
  {[ entity_path "E" := Document root ]}.
Definition result : Results :=
  setitem empty_results ClientMethods {[ "m" := DArgs ["STRING"; "FLOAT"] ]}.
End Duplicates.

(** A cycle next to a branch without one: [A] implements [B] and [C],
    [B] implements [A] and declares [b(INT32)], [C] declares [c(INT32)]. *)
Module Cycle.
Definition fs : gmap string FileContent :=
  {[ entity_path "A" := def_file [implements ["B"; "C"]];
     interface_path "B" :=
       def_file [implements ["A"];
                 Elem "ClientMethods" None [method "b" ["INT32"]]];
     interface_path "C" :=
       def_file [Elem "ClientMethods" None [method "c" ["INT32"]]] ]}.
Definition result : Results :=
  setitem empty_results ClientMethods
    {[ "b" := DArgs ["INT32"]; "c" := DArgs ["INT32"] ]}.
Definition out : list Event :=
  [DebugFound "B.def" (interface_path "B");
   DebugFound "A.def" (entity_path "A");
   CycleDetected (entity_path "A");
   DebugFound "C.def" (interface_path "C")].
End Cycle.

(** Failures: [E] implements [I], then has an [Interface] element without
    text, then implements [J], and declares [local(INT32)]; [I] declares
    [m(INT32)]. [F] implements [Broken], whose file is not well-formed,
    and [Missing], which has no file, and [I]. *)
Module Failures.
Definition E_root : Element :=
  Elem "root" None
    [Elem "Implements" None
       [Elem "Interface" (Some "I") []; Elem "Interface" None [];
        Elem "Interface" (Some "J") []];
     Elem "ClientMethods" None [method "local" ["INT32"]]].
Definition fs : gmap string FileContent :=
  {[ entity_path "E" := Document E_root;
     entity_path "F" := def_file [implements ["Broken"; "Missing"; "I"]];
     interface_path "I" :=
       def_file [Elem "ClientMethods" None [method "m" ["INT32"]]];
     interface_path "J" :=
       def_file [Elem "ClientMethods" None [method "j" ["INT32"]]];
     interface_path "Broken" := Unparsable ]}.
Definition partial : Results :=
  setitem empty_results ClientMethods {[ "m" := DArgs ["INT32"] ]}.
End Failures.

(** A diamond: [A] implements [B] and [C], both implement [D]. [D]
    declares [m(INT32)], [B] declares [m(STRING, STRING)] itself. *)
Module Diamond.
Definition fs : gmap string FileContent :=
  {[ entity_path "A" := def_file [implements ["B"; "C"]];
     interface_path "B" :=
       def_file [implements ["D"];
                 Elem "ClientMethods" None [method "m" ["STRING"; "STRING"]]];
     interface_path "C" := def_file [implements ["D"]];
     interface_path "D" :=
       def_file [Elem "ClientMethods" None [method "m" ["INT32"]]] ]}.
End Diamond.

(** ** The other functions of the script *)

(** More of [str], [re] and [os.path], as [detect_game_version] uses
    them. *)
Module PyStr.

(** [c.lower()] on one code point below 256. *)
Definition lower_char (c : ascii) : ascii :=
  let n := nat_of_ascii c in
  if (((65 <=? n) && (n <=? 90))
      || ((192 <=? n) && (n <=? 222) && negb (n =? 215)))%nat
  then ascii_of_nat (n + 32)
  else c.

(** [s.lower()] *)
Fixpoint lower (s : string) : string :=
  match s with
  | "" => ""
  | String c s' => String (lower_char c) (lower s')
  end.

(** The characters of the class [[a-zA-Z0-9]]. *)
Definition is_alnum (c : ascii) : bool :=
  let n := nat_of_ascii c in
  (((48 <=? n) && (n <=? 57)) || ((65 <=? n) && (n <=? 90))
   || ((97 <=? n) && (n <=? 122)))%nat.

Definition is_underscore (c : ascii) : bool := Ascii.eqb c "_".

Fixpoint lstrip_underscores (s : string) : string :=
  match s with
  | "" => ""
  | String c s' => if is_underscore c then lstrip_underscores s' else s
  end.

Fixpoint rstrip_underscores (s : string) : string :=
  match s with
  | "" => ""
  | String c s' =>
      match rstrip_underscores s' with
      | "" => if is_underscore c then "" else String c ""
      | r => String c r
      end
  end.

(** [s.strip('_')] *)
Definition strip_underscores (s : string) : string :=
  rstrip_underscores (lstrip_underscores s).

(** [re.sub(r'[^a-zA-Z0-9]', '_', s)] *)
Fixpoint sub_non_alnum (s : string) : string :=
  match s with
  | "" => ""
  | String c s' => String (if is_alnum c then c else "_"%char) (sub_non_alnum s')
  end.

(** [re.sub(r'_+', '_', s)]: of a run of underscores the last one stays. *)
Fixpoint sub_underscores (s : string) : string :=
  match s with
  | "" => ""
  | String c s' =>
      if is_underscore c
      then match s' with
           | String c' _ =>
               if is_underscore c' then sub_underscores s'
               else String c (sub_underscores s')
           | "" => String c ""
           end
      else String c (sub_underscores s')
  end.

(** [s[2:]] *)
Definition drop2 (s : string) : string :=
  match s with
  | String _ (String _ s') => s'
  | _ => ""
  end.

(** [os.path.basename(p)]: what follows the last slash. *)
Definition basename (p : string) : string :=
  default "" (last (Py.split "/" p)).

End PyStr.

(** [detect_game_version(base_path)], with the line [find_file] prints. *)
Definition detect_game_version (fs : gmap string FileContent)
    (base_path : string) : string * list Event :=
  let version := "unknown" in
  let region := "unknown" in
  let '(v_path, out) := find_file fs base_path "version.xml" [] in
  let version :=
    match v_path with
    | Some p =>
        if Py.truthy p then
          match parse fs p with
          | inr root =>
              match text root with
              | Some t =>
                  if bool_decide (tag root = "version") && Py.truthy t
                  then Py.strip t else version
              | None => version
              end
          | inl _ => version
          end
        else version
    | None => version
    end in
  let version :=
    if Py.startswith "v." version then PyStr.drop2 version else version in
  let base_name :=
    PyStr.lower (PyStr.basename (posixpath.normpath base_path)) in
  let region :=
    if Py.contains "eu" base_name then "eu"
    else if Py.contains "na" base_name then "na"
    else if Py.contains "ru" base_name then "ru"
    else if Py.contains "asia" base_name then "asia"
    else if Py.contains "cn" base_name then "cn"
    else if Py.contains "ct" base_name then "ct"
    else region in
  let safe_ver := PyStr.sub_non_alnum version in
  let safe_ver := PyStr.strip_underscores (PyStr.sub_underscores safe_ver) in
  if negb (bool_decide (region = "unknown"))
  then ("wot_" +:+ region +:+ "_v" +:+ safe_ver, out)
  else ("wot_v" +:+ safe_ver, out).

(** How a call ends: it returns, raises, or leaves through [sys.exit]. *)
Inductive Outcome (A : Type) : Type :=
| Returned (a : A)
| Raised (e : PyException)
| SystemExit (code : nat).

Arguments Returned {A} a.
Arguments Raised {A} e.
Arguments SystemExit {A} code.

(** The lines of [parse_entities_xml] and [main], and those of the
    functions they call. *)
Inductive MainEvent : Type :=
| Printed (e : Event)
| ErrorNoEntitiesXml (base_path : string)
| ParsingEntitiesFrom (path : string)
| DebugFoundEntity (child_tag : string) (idx : nat)
| DebugNoClientServerEntities
| DebugGamePath (game_path : string)
| DebugVersionTag (version_tag : string)
| DebugEntityTypes (n : nat)
| ErrorNoEntities
| CriticalError.

(** [parse_entities_xml(base_path)]. The dictionary [{idx: tag}] is kept
    as the list of its items in insertion order, the order in which [main]
    goes through it. *)
Definition parse_entities_xml (fs : gmap string FileContent)
    (base_path : string) : Outcome (list (nat * string)) * list MainEvent :=
  let '(path, out) := find_file fs base_path "entities.xml" [] in
  let out := Printed <$> out in
  if negb (Py.truthy_opt path) then
    (SystemExit 1, out ++ [ErrorNoEntitiesXml base_path])
  else
    let path := default "" path in
    let out := out ++ [ParsingEntitiesFrom path] in
    match parse fs path with
    | inl e => (Raised e, out)
    | inr root =>
        let cs_entities :=
          if bool_decide (tag root = "ClientServerEntities") then Some root
          else find "ClientServerEntities" root in
        match cs_entities with
        | Some cs =>
            let entities := enumerate (tag <$> children cs) in
            (Returned entities,
             out ++ ((fun '(idx, t) => DebugFoundEntity t idx) <$> entities))
        | None => (Returned [], out ++ [DebugNoClientServerEntities])
        end
    end.

(** The part of [main] that leads to [full_data]: the version tag, the
    entity types, the test that there are some, and the loop over them.
    [game_path] is [sys.argv[1]]. The packet types, read from files next to
    the script inside a [try] of their own, and the three files written
    from [full_data] afterwards are left out. An exception is turned into
    [sys.exit(1)] by the [except] clause of [main]; [None] is a loop that
    has used up its fuel. *)
Definition main_entities (fs : gmap string FileContent) (game_path : string)
    : option (Outcome (string * gmap nat EntityJson) * list MainEvent) :=
  let out := [DebugGamePath game_path] in
  let '(version_tag, out1) := detect_game_version fs game_path in
  let out := out ++ (Printed <$> out1) ++ [DebugVersionTag version_tag] in
  match parse_entities_xml fs game_path with
  | (SystemExit code, out2) => Some (SystemExit code, out ++ out2)
  | (Raised e, out2) => Some (SystemExit 1, out ++ out2 ++ [CriticalError])
  | (Returned entity_types, out2) =>
      let out := out ++ out2 ++ [DebugEntityTypes (length entity_types)] in
      match entity_types with
      | [] => Some (SystemExit 1, out ++ [ErrorNoEntities])
      | _ =>
          match entities_loop fs game_path entity_types ∅ with
          | Some (full_data, out3) =>
              Some (Returned (version_tag, full_data), out ++ (Printed <$> out3))
          | None => None
          end
      end
  end.

(** Every character of a string passes a test. *)
Fixpoint string_forall (p : ascii → bool) (s : string) : bool :=
  match s with
  | "" => true
  | String c s' => p c && string_forall p s'
  end.

(** The characters a version tag is made of. *)
Definition file_friendly (c : ascii) : bool :=
  PyStr.is_alnum c || PyStr.is_underscore c.

(** The element whose children are the entity types: the root when it is
    [ClientServerEntities], else its first child of that name. *)
Definition cs_entities (root : Element) : option Element :=
  if bool_decide (tag root = "ClientServerEntities") then Some root
  else find "ClientServerEntities" root.

(** No two underscores follow each other. *)
Fixpoint no_double_underscore (s : string) : bool :=
  match s with
  | String c ((String c' _) as s') =>
      negb (PyStr.is_underscore c && PyStr.is_underscore c')
      && no_double_underscore s'
  | _ => true
  end.

(** The prefixes of a version tag, one per region and one for none. *)
Definition tag_prefixes : list string :=
  ["wot_eu_v"; "wot_na_v"; "wot_ru_v"; "wot_asia_v"; "wot_cn_v"; "wot_ct_v";
   "wot_v"].

(** A printed line that is not an error, or is an error about a file that
    exists and was opened. *)
Definition about_existing_file (fs : gmap string FileContent) (ev : Event)
    : Prop :=
  ∀ p e, ev = ErrorFailedToParse p e → is_Some (fs !! p) ∧ e ≠ FileNotFoundError.

(** The interface leads back to a definition that is being resolved: its
    definition file is on the list. *)
Definition leads_back (fs : gmap string FileContent) (base_path : string)
    (visited : list string) (interface : Element) : bool :=
  match interface_def fs base_path interface with
  | Some p => bool_decide (p ∈ visited)
  | None => false
  end.

(** Game clients used as examples. *)
Module Client.
Definition fs : gmap string FileContent :=
  {[ "/games/WoT_EU/version.xml" :=
       Document (Elem "version" (Some " v.1.25.1.0 #1234 ") []);
     "/games/WoT_EU/scripts/entities.xml" :=
       Document (Elem "root" None
         [Elem "ClientServerEntities" None
            [Elem "Account" None []; Elem "Avatar" None [];
             Elem "Vehicle" None []]]);
     "/games/WoT_EU/scripts/entity_defs/Avatar.def" :=
       def_file [implements ["Chat"]];
     "/games/WoT_EU/scripts/entity_defs/Vehicle.def" :=
       def_file [Elem "ClientMethods" None [method "onHealthChanged" ["INT16"]]];
     "/games/WoT_EU/scripts/entity_defs/interfaces/Chat.def" :=
       def_file [Elem "ClientMethods" None
                   [method "onChat" ["STRING"]; method "onBan" ["INT32"; "STRING"]]] ]}.
End Client.

Arguments get_def_path : simpl never.
Arguments find_file : simpl never.

(** * Properties *)

(** ** The library functions on examples *)

Example normpath_examples :
  posixpath.normpath "/game//res/../scripts/." = "/game/scripts"
  ∧ posixpath.normpath "//a/../../b/" = "//b"
  ∧ posixpath.normpath "///x/./y/.." = "/x"
  ∧ posixpath.normpath "../a/../.." = "../.."
  ∧ posixpath.normpath "/.." = "/"
  ∧ posixpath.normpath "" = ".".
Proof. by vm_compute. Qed.

Example join_examples :
  posixpath.join "/game" ["res"; "scripts"; "Tank.def"] = "/game/res/scripts/Tank.def"
  ∧ posixpath.join "/game/" ["/abs"; "x"] = "/abs/x"
  ∧ posixpath.join "" ["x"] = "x"
  ∧ posixpath.join "a/" ["b"] = "a/b".
Proof. by vm_compute. Qed.

Example strip_examples :
  Py.strip "  FLOAT " = "FLOAT"
  ∧ Py.strip (String "009" (String "010" "a b")) = "a b"
  ∧ Py.strip "   " = ""
  ∧ Py.split "/" "a//b/" = ["a"; ""; "b"; ""].
Proof. by vm_compute. Qed.

Example get_def_path_examples :
  get_def_path Tank.fs "/game/" "Shared" =
    (Some (interface_path "Shared"),
     [DebugFound "Shared.def" (interface_path "Shared")])
  ∧ get_def_path Tank.fs "/game" "Nope" =
    (None, [DebugCouldNotFind "Nope.def" "/game"]).
Proof. by vm_compute. Qed.

(** ** The calls and the shared list *)

Lemma bind_Some {A B} (m : M A) (k : A → M B) visited b visited2 out :
  bind m k visited = Some (b, visited2, out) ↔
  ∃ a visited1 out1 out2,
    m visited = Some (a, visited1, out1) ∧
    k a visited1 = Some (b, visited2, out2) ∧ out = out1 ++ out2.
Proof.
  unfold bind. split.
  - destruct (m visited) as [[[a v1] o1]|]; [|done].
    destruct (k a v1) as [[[b' v2] o2]|] eqn:Hk; [|done].
    intros [= <- <- <-]. by exists a, v1, o1, o2.
  - intros (a & v1 & o1 & o2 & -> & -> & ->). done.
Qed.

Lemma bind_None {A B} (m : M A) (k : A → M B) visited :
  bind m k visited = None ↔
  m visited = None ∨
  ∃ a visited1 out1, m visited = Some (a, visited1, out1) ∧ k a visited1 = None.
Proof.
  unfold bind. split.
  - destruct (m visited) as [[[a v1] o1]|]; [|by left].
    destruct (k a v1) as [[[b' v2] o2]|] eqn:Hk; [done|].
    intros _. right. by exists a, v1, o1.
  - intros [-> | (a & v1 & o1 & -> & ->)]; done.
Qed.


Lemma keeps_ret {A} (a : A) : keeps_visited (ret a).
Proof. intros v a' v' out H. unfold ret in H. by simplify_eq. Qed.

Lemma keeps_print e : keeps_visited (print e).
Proof. intros v a' v' out H. unfold print in H. by simplify_eq. Qed.

Lemma keeps_printing {A} (x : A * list Event) : keeps_visited (printing x).
Proof. intros v a' v' out H. unfold printing in H. by simplify_eq. Qed.

Lemma keeps_out_of_fuel {A} : keeps_visited (@out_of_fuel A).
Proof. intros v a' v' out H. unfold out_of_fuel in H. done. Qed.

Lemma keeps_bind {A B} (m : M A) (k : A → M B) :
  keeps_visited m → (∀ a, keeps_visited (k a)) → keeps_visited (bind m k).
Proof.
  intros Hm Hk v b v' out (a & v1 & o1 & o2 & H1 & H2 & _)%bind_Some.
  apply Hm in H1 as ->. by apply Hk in H2.
Qed.

Create HintDb keeps.
#[local] Hint Resolve keeps_ret keeps_print keeps_printing keeps_out_of_fuel : keeps.

(** ** The member dictionaries *)

Lemma getitem_setitem r k k' d :
  getitem (setitem r k d) k' = if decide (k = k') then d else getitem r k'.
Proof. by destruct r, k, k'. Qed.

Lemma getitem_empty_results k : getitem empty_results k = ∅.
Proof. by destruct k. Qed.

Lemma getitem_merge_inherited results inherited k :
  getitem (merge_inherited results inherited) k =
  dict_update (getitem results k) (getitem inherited k).
Proof. by destruct results, inherited, k. Qed.

Lemma results_eq r1 r2 :
  (∀ k, getitem r1 k = getitem r2 k) → r1 = r2.
Proof.
  intros H. destruct r1, r2.
  pose proof (H ClientMethods). pose proof (H Properties).
  pose proof (H CellMethods). pose proof (H BaseMethods).
  simpl in *. congruence.
Qed.

Lemma merge_inherited_empty results :
  merge_inherited results empty_results = results.
Proof.
  apply results_eq. intros k.
  rewrite getitem_merge_inherited, getitem_empty_results.
  unfold dict_update. by rewrite (left_id_L ∅ (∪)).
Qed.



Lemma process_child_fst def_path section st child :
  (process_child def_path section st child).1 = add_decl section st.1 child.
Proof.
  destruct st as [d out]. unfold process_child, add_decl. simpl.
  by destruct (is_excluded child).
Qed.

Lemma fold_process_child_fst def_path section decls st :
  (fold_left (process_child def_path section) decls st).1 =
  fold_left (add_decl section) decls st.1.
Proof.
  revert st. induction decls as [|child decls IH]; intros st; simpl; [done|].
  by rewrite IH, process_child_fst.
Qed.

Lemma process_section_fst def_path root st section :
  (process_section def_path root st section).1 =
  setitem st.1 section
    (fold_left (add_decl section) (local_decls section root) (getitem st.1 section)).
Proof.
  destruct st as [r out]. unfold process_section, local_decls. simpl.
  destruct (find (key_name section) root) as [xml_section|].
  - pose proof (fold_process_child_fst def_path section (children xml_section)
                  (getitem r section, out)) as H.
    destruct (fold_left _ _ _) as [d out']. simpl in *. by rewrite H.
  - simpl. by destruct r, section.
Qed.

Lemma fold_process_section_fst def_path root sections st :
  (fold_left (process_section def_path root) sections st).1 =
  fold_left
    (fun r section =>
       setitem r section
         (fold_left (add_decl section) (local_decls section root) (getitem r section)))
    sections st.1.
Proof.
  revert st. induction sections as [|k sections IH]; intros st; [done|].
  cbn [fold_left]. by rewrite IH, process_section_fst.
Qed.

Lemma getitem_local_definitions def_path root results section :
  getitem (local_definitions def_path root results).1 section =
  fold_left (add_decl section) (local_decls section root) (getitem results section).
Proof.
  unfold local_definitions. rewrite fold_process_section_fst.
  unfold section_keys. cbn [fold_left fst].
  destruct section; rewrite !getitem_setitem; by repeat case_decide.
Qed.


Lemma lookup_fold_add_decl section decls d n :
  fold_left (add_decl section) decls d !! n =
  match surviving n decls with
  | Some child => Some (descriptor section child)
  | None => d !! n
  end.
Proof.
  unfold surviving. revert d.
  induction decls as [|c decls IH] using rev_ind; intros d; [done|].
  rewrite fold_left_app, filter_app. simpl. unfold add_decl at 1.
  rewrite filter_cons, filter_nil.
  destruct (is_excluded c) eqn:Hex.
  - rewrite decide_False by (intros [_ ?]; done).
    rewrite app_nil_r. apply IH.
  - destruct (decide (tag c = n)) as [Hn|Hn].
    + rewrite decide_True by done. rewrite last_snoc, Hn.
      by rewrite lookup_insert_eq.
    + rewrite decide_False by (intros [? _]; done).
      rewrite app_nil_r, lookup_insert_ne by done. apply IH.
  Qed.

Section CollectFacts.

Variable fs : gmap string FileContent.

Lemma keeps_implements_loop rec base_path interfaces results :
  (∀ p, keeps_visited (rec p)) →
  keeps_visited (implements_loop fs rec base_path interfaces results).
Proof.
  intros Hrec. revert results.
  induction interfaces as [|interface rest IH]; intros results; simpl.
  { auto with keeps. }
  destruct (text interface) as [t|]; [|auto with keeps].
  apply keeps_bind; [auto with keeps|]. intros [p|].
  - destruct (Py.truthy p).
    + apply keeps_bind; auto.
    + apply keeps_bind; auto with keeps.
  - apply keeps_bind; auto with keeps.
Qed.

Lemma keeps_try_body rec base_path def_path results :
  (∀ p, keeps_visited (rec p)) →
  keeps_visited (try_body fs rec base_path def_path results).
Proof.
  intros Hrec. unfold try_body.
  destruct (parse fs def_path) as [e|root]; [auto with keeps|].
  apply keeps_bind.
  - destruct (find "Implements" root); [|auto with keeps].
    by apply keeps_implements_loop.
  - intros [r [e|]]; [auto with keeps|].
    apply keeps_bind; auto with keeps.
Qed.

(** [collect_methods (S fuel)] with the calls on [visited] carried out. *)
Lemma collect_methods_S fuel base_path def_path visited :
  collect_methods fs (S fuel) base_path def_path visited =
  if bool_decide (def_path ∈ visited)
  then Some (empty_results, visited, [CycleDetected def_path])
  else
    match try_body fs (collect_methods fs fuel base_path) base_path def_path
            empty_results (visited ++ [def_path]) with
    | None => None
    | Some ((results, raised), visited1, out) =>
        Some (results, removelast visited1,
              out ++ match raised with
                     | Some e => [ErrorFailedToParse def_path e]
                     | None => []
                     end)
    end.
Proof.
  simpl. unfold bind at 1. unfold visited_contains.
  destruct (bool_decide (def_path ∈ visited)); [done|].
  unfold bind, visited_append, visited_pop, ret, print; simpl.
  by destruct (try_body _ _ _ _ _ _) as [[[[r [e|]] v1] o]|].
Qed.

Lemma keeps_collect_methods fuel base_path def_path :
  keeps_visited (collect_methods fs fuel base_path def_path).
Proof.
  revert def_path. induction fuel as [|fuel IH]; intros def_path.
  { apply keeps_out_of_fuel. }
  intros v r v' out. rewrite collect_methods_S.
  case_bool_decide; [by intros [= _ <- _]|].
  destruct (try_body _ _ _ _ _ _) as [[[[r1 raised] v1] o]|] eqn:Hbody; [|done].
  apply keeps_try_body in Hbody as ->; [|done].
  intros [= _ <- _]. by rewrite removelast_last.
Qed.

(** *** Fuel *)


Lemma M_le_refl {A} (m : M A) : M_le m m.
Proof. by intros v x. Qed.

Lemma M_le_bind {A B} (m1 m2 : M A) (k1 k2 : A → M B) :
  M_le m1 m2 → (∀ a, M_le (k1 a) (k2 a)) → M_le (bind m1 k1) (bind m2 k2).
Proof.
  intros Hm Hk v [[b v2] out] (a & v1 & o1 & o2 & H1 & H2 & ->)%bind_Some.
  apply bind_Some. exists a, v1, o1, o2. split_and!; [by apply Hm|by apply Hk|done].
Qed.

Lemma M_le_implements_loop rec1 rec2 base_path interfaces results :
  (∀ p, M_le (rec1 p) (rec2 p)) →
  M_le (implements_loop fs rec1 base_path interfaces results)
       (implements_loop fs rec2 base_path interfaces results).
Proof.
  intros Hrec. revert results.
  induction interfaces as [|interface rest IH]; intros results; simpl.
  { apply M_le_refl. }
  destruct (text interface) as [t|]; [|apply M_le_refl].
  apply M_le_bind; [apply M_le_refl|]. intros [p|].
  - destruct (Py.truthy p); apply M_le_bind; auto using M_le_refl.
  - apply M_le_bind; auto using M_le_refl.
Qed.

Lemma M_le_try_body rec1 rec2 base_path def_path results :
  (∀ p, M_le (rec1 p) (rec2 p)) →
  M_le (try_body fs rec1 base_path def_path results)
       (try_body fs rec2 base_path def_path results).
Proof.
  intros Hrec. unfold try_body.
  destruct (parse fs def_path) as [e|root]; [apply M_le_refl|].
  apply M_le_bind; [|intros a; apply M_le_refl].
  destruct (find "Implements" root); [|apply M_le_refl].
  by apply M_le_implements_loop.
Qed.

Lemma collect_methods_fuel_S fuel base_path def_path :
  M_le (collect_methods fs fuel base_path def_path)
       (collect_methods fs (S fuel) base_path def_path).
Proof.
  revert def_path. induction fuel as [|fuel IH]; intros def_path v x; [done|].
  rewrite (collect_methods_S (S fuel)), (collect_methods_S fuel).
  case_bool_decide; [done|].
  destruct (try_body fs (collect_methods fs fuel base_path) _ _ _ _)
    as [[[[r raised] v1] o]|] eqn:Hbody; [|done].
  eapply M_le_try_body in Hbody; [|apply IH]. by rewrite Hbody.
Qed.

Lemma collect_methods_fuel_le (fuel fuel' : nat) base_path def_path :
  (fuel ≤ fuel')%nat →
  M_le (collect_methods fs fuel base_path def_path)
       (collect_methods fs fuel' base_path def_path).
Proof.
  induction 1 as [|fuel' _ IH]; [apply M_le_refl|].
  intros v x Hx. by apply collect_methods_fuel_S, IH.
Qed.

(** Two runs that both return agree, whatever fuel they were given. *)
Lemma collect_methods_fuel_agree fuel1 fuel2 base_path def_path visited x1 x2 :
  collect_methods fs fuel1 base_path def_path visited = Some x1 →
  collect_methods fs fuel2 base_path def_path visited = Some x2 →
  x1 = x2.
Proof.
  intros H1 H2.
  apply (collect_methods_fuel_le fuel1 (fuel1 `max` fuel2)) in H1; [|lia].
  apply (collect_methods_fuel_le fuel2 (fuel1 `max` fuel2)) in H2; [|lia].
  congruence.
Qed.

(** *** Termination *)

Lemma implements_loop_returns rec base_path interfaces results visited :
  (∀ p, keeps_visited (rec p)) →
  (∀ p, is_Some (rec p visited)) →
  is_Some (implements_loop fs rec base_path interfaces results visited).
Proof.
  intros Hkeeps Hrec. revert results.
  induction interfaces as [|interface rest IH]; intros results; simpl; [done|].
  destruct (text interface) as [t|]; [|done].
  unfold bind at 1, printing at 1.
  destruct (get_def_path fs base_path (Py.strip t)) as [[p|] o]; simpl.
  - destruct (Py.truthy p).
    + unfold bind. destruct (Hrec p) as [[[inh v1] o1] Hp]. rewrite Hp.
      apply Hkeeps in Hp as ->.
      by destruct (IH (merge_inherited results inh)) as [[[x v2] o2] ->].
    + unfold bind, print.
      by destruct (IH results) as [[[x v2] o2] ->].
  - unfold bind, print.
    by destruct (IH results) as [[[x v2] o2] ->].
Qed.

Lemma try_body_returns rec base_path def_path results visited :
  (∀ p, keeps_visited (rec p)) →
  (parse fs def_path ≠ inl FileNotFoundError → ∀ p, is_Some (rec p visited)) →
  is_Some (try_body fs rec base_path def_path results visited).
Proof.
  intros Hkeeps Hrec. unfold try_body.
  destruct (parse fs def_path) as [e|root] eqn:Hparse; [done|].
  unfold bind at 1.
  destruct (find "Implements" root) as [implements|]; simpl.
  - destruct (implements_loop_returns rec base_path
                (findall "Interface" implements) results visited)
      as [[[[r raised] v1] o] ->]; [done|by apply Hrec|].
    by destruct raised.
  - done.
Qed.


Lemma remaining_append visited def_path :
  def_path ∉ visited → is_Some (fs !! def_path) →
  remaining fs (visited ++ [def_path]) < remaining fs visited.
Proof.
  intros Hnew Hfile. unfold remaining. apply subset_size.
  apply elem_of_dom in Hfile.
  assert (def_path ∉ (list_to_set visited : gset string))
    by by rewrite elem_of_list_to_set.
  rewrite list_to_set_app_L. simpl. set_solver.
Qed.

Lemma remaining_le_size visited : (remaining fs visited ≤ size fs)%nat.
Proof.
  unfold remaining. rewrite <- size_dom.
  apply subseteq_size. set_solver.
Qed.

Lemma collect_methods_returns fuel base_path def_path visited :
  remaining fs visited < fuel →
  is_Some (collect_methods fs fuel base_path def_path visited).
Proof.
  revert def_path visited.
  induction fuel as [|fuel IH]; intros def_path visited Hfuel; [lia|].
  rewrite collect_methods_S. case_bool_decide as Hin; [done|].
  destruct (try_body_returns (collect_methods fs fuel base_path) base_path
              def_path empty_results (visited ++ [def_path]))
    as [[[[r raised] v1] o] ->]; [| |done].
  - intros p. apply keeps_collect_methods.
  - intros Hparse p. apply IH.
    assert (is_Some (fs !! def_path)) as Hfile.
    { unfold parse in Hparse. by destruct (fs !! def_path). }
    pose proof (remaining_append visited def_path Hin Hfile). lia.
Qed.

(** *** The result of a resolution *)


Lemma collect_methods_resolve fuel base_path def_path visited r visited' out :
  collect_methods fs fuel base_path def_path visited = Some (r, visited', out) →
  r = resolve fs base_path def_path visited ∧ visited' = visited.
Proof.
  intros Hrun. split; [|by eapply keeps_collect_methods].
  unfold resolve.
  destruct (collect_methods_returns (S (size fs)) base_path def_path visited)
    as [[[r' v'] o'] Hr'].
  { pose proof (remaining_le_size visited). lia. }
  rewrite Hr'.
  by pose proof (collect_methods_fuel_agree _ _ _ _ _ _ _ Hrun Hr') as [= -> _ _].
Qed.


Lemma until_no_text_all interfaces :
  forallb has_text interfaces = true → until_no_text interfaces = interfaces.
Proof.
  induction interfaces as [|i rest IH]; simpl; [done|].
  destruct (has_text i); simpl; [|done]. intros H. by rewrite IH.
Qed.

(** The loop when the interface at its head has no definition file. *)
Lemma implements_loop_not_found rec base_path interface t rest results visited :
  text interface = Some t →
  interface_def fs base_path interface = None →
  implements_loop fs rec base_path (interface :: rest) results visited =
  match implements_loop fs rec base_path rest results visited with
  | Some (x, visited', out) =>
      Some (x, visited',
            (get_def_path fs base_path (Py.strip t)).2
            ++ [WarningInterfaceNotFound (Py.strip t)] ++ out)
  | None => None
  end.
Proof.
  intros Ht. unfold interface_def. rewrite Ht. simpl. rewrite Ht.
  unfold bind at 1, printing at 1.
  destruct (get_def_path fs base_path (Py.strip t)) as [[p|] o]; simpl.
  - destruct (Py.truthy p); [done|]. intros _.
    unfold bind, print.
    by destruct (implements_loop fs rec base_path rest results visited)
      as [[[x v'] out]|].
  - intros _. unfold bind, print.
    by destruct (implements_loop fs rec base_path rest results visited)
      as [[[x v'] out]|].
Qed.

(** The loop when the interface at its head has a definition file. *)
Lemma implements_loop_found rec base_path interface t p rest results visited :
  text interface = Some t →
  interface_def fs base_path interface = Some p →
  implements_loop fs rec base_path (interface :: rest) results visited =
  match rec p visited with
  | Some (inherited, visited1, out1) =>
      match implements_loop fs rec base_path rest
              (merge_inherited results inherited) visited1 with
      | Some (x, visited', out) =>
          Some (x, visited',
                (get_def_path fs base_path (Py.strip t)).2 ++ out1 ++ out)
      | None => None
      end
  | None => None
  end.
Proof.
  intros Ht. unfold interface_def. rewrite Ht. simpl. rewrite Ht.
  unfold bind at 1, printing at 1.
  destruct (get_def_path fs base_path (Py.strip t)) as [[q|] o]; simpl; [|done].
  destruct (Py.truthy q); [|done]. intros [= ->].
  unfold bind. destruct (rec p visited) as [[[inh v1] o1]|]; [|done].
  by destruct (implements_loop fs rec base_path rest _ v1) as [[[x v'] out]|].
Qed.

(** What the loop returns: the contributions of the interfaces it got
    through, merged in document order, and [AttributeError] when it met
    an [Interface] element without text. *)
Lemma implements_loop_result fuel base_path interfaces results visited
    r raised visited' out :
  implements_loop fs (collect_methods fs fuel base_path) base_path interfaces
    results visited = Some ((r, raised), visited', out) →
  r = merge_interfaces fs base_path visited (until_no_text interfaces) results ∧
  raised = (if forallb has_text interfaces then None else Some AttributeError) ∧
  visited' = visited.
Proof.
  revert results r raised visited' out.
  induction interfaces as [|i rest IH]; intros results r raised visited' out.
  { simpl. unfold ret. by intros [= <- <- <- _]. }
  cbn [until_no_text forallb].
  destruct (text i) as [t|] eqn:Ht.
  2:{ assert (has_text i = false) as ->.
      { unfold has_text. rewrite Ht. apply bool_decide_false. by intros [? ?]. }
      simpl. rewrite Ht. unfold ret. by intros [= <- <- <- _]. }
  assert (has_text i = true) as ->.
  { unfold has_text. rewrite Ht. by apply bool_decide_true. }
  destruct (interface_def fs base_path i) as [p|] eqn:Hdef.
  - rewrite (implements_loop_found _ _ _ t p) by done.
    destruct (collect_methods fs fuel base_path p visited)
      as [[[inh v1] o1]|] eqn:Hrec; [|done].
    apply collect_methods_resolve in Hrec as [-> ->].
    destruct (implements_loop _ _ _ rest _ _)
      as [[[[r1 raised1] v2] o2]|] eqn:Hrest; [|done].
    intros [= <- <- <- _]. apply IH in Hrest as (-> & -> & ->).
    split; [|done]. unfold merge_interfaces, inherited_from. cbn [fold_left].
    by rewrite Hdef.
  - rewrite (implements_loop_not_found _ _ _ t) by done.
    destruct (implements_loop _ _ _ rest _ _)
      as [[[[r1 raised1] v2] o2]|] eqn:Hrest; [|done].
    intros [= <- <- <- _]. apply IH in Hrest as (-> & -> & ->).
    split; [|done]. unfold merge_interfaces, inherited_from. cbn [fold_left].
    by rewrite Hdef, merge_inherited_empty.
Qed.


Lemma collect_methods_result fuel base_path def_path visited r visited' out :
  collect_methods fs fuel base_path def_path visited = Some (r, visited', out) →
  r = resolve_step fs base_path def_path visited.
Proof.
  destruct fuel as [|fuel]; [done|].
  rewrite collect_methods_S. unfold resolve_step.
  case_bool_decide; [by intros [= <- _ _]|].
  unfold try_body, interfaces_of.
  destruct (parse fs def_path) as [e|root]; [by intros [= <- _ _]|].
  unfold bind at 1.
  destruct (find "Implements" root) as [implements|].
  - destruct (implements_loop _ _ _ _ _ _) as [[[[r1 raised] v1] o1]|] eqn:Hloop;
      [|done].
    apply implements_loop_result in Hloop as (-> & -> & ->).
    destruct (forallb has_text (findall "Interface" implements)).
    + unfold bind, printing, ret. by intros [= <- _ _].
    + unfold ret. by intros [= <- _ _].
  - unfold ret at 1. cbn [fst snd forallb until_no_text].
    unfold bind, printing, ret. by intros [= <- _ _].
Qed.

Lemma resolve_unfold base_path def_path visited :
  resolve fs base_path def_path visited = resolve_step fs base_path def_path visited.
Proof.
  destruct (collect_methods_returns (S (size fs)) base_path def_path visited)
    as [[[r v] o] Hr].
  { pose proof (remaining_le_size visited). lia. }
  pose proof (collect_methods_resolve _ _ _ _ _ _ _ Hr) as [<- _].
  by eapply collect_methods_result.
Qed.

End CollectFacts.

(** * The properties of the specification *)

(** ** C1: properties and the zero-argument rule *)

Lemma zero_args_excluded child : arg_count child = 0 → is_excluded child = true.
Proof. unfold is_excluded. by intros ->. Qed.

Lemma is_excluded_false child :
  is_excluded child = false ↔
  arg_count child ≠ 0 ∧ has_detail_distance child = false.
Proof.
  unfold is_excluded.
  destruct (arg_count child) as [|n], (has_detail_distance child); naive_solver.
Qed.

(** C1. The code at the scenario of the specification: [Tank] implements only
    [Shared], which declares the property [health] of type [FLOAT] and no
    detail-distance marker. The declaration has no [Arg] child, the
    zero-argument rule applies to it as to a method, and the call for
    [Tank] returns four empty dictionaries: [health] is not in
    [Properties], where the specification expects
    [{health: {type: FLOAT}}]. *)
Theorem tank_properties_are_empty :
  collect_methods Tank.fs 2 "/game" (entity_path "Tank") [] =
    Some (empty_results, [], [DebugFound "Shared.def" (interface_path "Shared")])
  ∧ has_detail_distance Tank.health = false
  ∧ descriptor Properties Tank.health = DType "FLOAT"
  ∧ is_excluded Tank.health = true
  ∧ getitem (resolve Tank.fs "/game" (entity_path "Tank") []) Properties
    ≠ {[ "health" := DType "FLOAT" ]}.
Proof. split_and!; [by vm_compute..|]. by vm_compute. Qed.

(** ** C2: the list [visited] *)

(** C2, as stated, fails on a diamond. [A] implements [B] and [C], which
    both implement [D]. When [C] reaches [D], [D] has been resolved under
    [B] already, but it is no longer on the list, which then holds [A] and
    [C]: the call returns the members of [D], not four empty dictionaries,
    nothing is reported as a cycle, and [m] of [D] replaces in the result
    of [A] the declaration [B] had put over it. *)
Lemma diamond_resolved_twice :
  collect_methods Diamond.fs 3 "/game" (entity_path "A") [] =
    Some (setitem empty_results ClientMethods {[ "m" := DArgs ["INT32"] ]}, [],
          [DebugFound "B.def" (interface_path "B");
           DebugFound "D.def" (interface_path "D");
           DebugFound "C.def" (interface_path "C");
           DebugFound "D.def" (interface_path "D")])
  ∧ collect_methods Diamond.fs 1 "/game" (interface_path "D")
      [entity_path "A"; interface_path "C"] =
    Some (setitem empty_results ClientMethods {[ "m" := DArgs ["INT32"] ]},
          [entity_path "A"; interface_path "C"], [])
  ∧ setitem empty_results ClientMethods {[ "m" := DArgs ["INT32"] ]}
    ≠ empty_results.
Proof. split_and!; by vm_compute. Qed.

(** C2, amended. The list is shared by the whole call tree and holds the
    definitions whose calls are in progress: a call for a definition that
    is on the list returns four empty dictionaries; every call that
    returns, whatever its exit path, leaves the list as it found it; its
    interfaces are therefore all resolved against the list of its caller
    extended with its own definition, whatever was resolved before. *)
Theorem visited_is_the_call_stack fs fuel base_path def_path visited r visited' out :
  collect_methods fs fuel base_path def_path visited = Some (r, visited', out) →
  visited' = visited
  ∧ (def_path ∈ visited → r = empty_results ∧ out = [CycleDetected def_path])
  ∧ r = resolve_step fs base_path def_path visited.
Proof.
  intros Hrun. split_and!.
  - by eapply keeps_collect_methods.
  - intros Hin. destruct fuel as [|fuel]; [done|].
    rewrite collect_methods_S, bool_decide_true in Hrun by done.
    by simplify_eq.
  - by eapply collect_methods_result.
Qed.

Lemma visited_is_the_call_stack_witness :
  [entity_path "A"; interface_path "C"] = [entity_path "A"; interface_path "C"]
  ∧ (interface_path "D" ∈ [entity_path "A"; interface_path "C"] →
     setitem empty_results ClientMethods {[ "m" := DArgs ["INT32"] ]} = empty_results
     ∧ [] = [CycleDetected (interface_path "D")])
  ∧ setitem empty_results ClientMethods {[ "m" := DArgs ["INT32"] ]} =
    resolve_step Diamond.fs "/game" (interface_path "D")
      [entity_path "A"; interface_path "C"].
Proof.
  apply (visited_is_the_call_stack Diamond.fs 1 "/game" (interface_path "D")
           [entity_path "A"; interface_path "C"] _ _ []).
  vm_compute. reflexivity.
Defined.

(** ** Lookups in the result *)

Section ResultFacts.

Variable fs : gmap string FileContent.

Lemma parse_Document def_path root :
  parse fs def_path = inr root ↔ fs !! def_path = Some (Document root).
Proof.
  unfold parse. destruct (fs !! def_path) as [[root'|]|]; naive_solver.
Qed.

Lemma lookup_merge_interfaces base_path visited interfaces results section n :
  getitem (merge_interfaces fs base_path visited interfaces results) section !! n =
  fold_left (fun acc o => match o with Some x => Some x | None => acc end)
    (map (fun i => getitem (inherited_from fs base_path visited i) section !! n)
         interfaces)
    (getitem results section !! n).
Proof.
  unfold merge_interfaces. revert results.
  induction interfaces as [|i rest IH]; intros results; [done|].
  cbn [fold_left map]. rewrite IH. f_equal.
  rewrite getitem_merge_inherited. unfold dict_update.
  rewrite lookup_union.
  by destruct (getitem (inherited_from fs base_path visited i) section !! n),
              (getitem results section !! n).
Qed.

(** The result of a call that got through its interfaces: the local
    declarations on top of the merged interfaces. *)
Lemma collect_methods_parsed fuel base_path def_path visited r visited' out root :
  collect_methods fs fuel base_path def_path visited = Some (r, visited', out) →
  def_path ∉ visited →
  parse fs def_path = inr root →
  forallb has_text (interfaces_of root) = true →
  ∀ section,
    getitem r section =
    fold_left (add_decl section) (local_decls section root)
      (getitem (merge_interfaces fs base_path (visited ++ [def_path])
                  (interfaces_of root) empty_results) section).
Proof.
  intros Hrun Hnew Hparse Htext section.
  apply collect_methods_result in Hrun as ->.
  unfold resolve_step. rewrite bool_decide_false, Hparse, Htext by done.
  by rewrite getitem_local_definitions, until_no_text_all.
Qed.

Lemma surviving_None n decls :
  (∀ child, child ∈ decls → tag child = n → is_excluded child = true) →
  surviving n decls = None.
Proof.
  intros Hex. unfold surviving. apply last_None.
  destruct (filter _ decls) as [|c l] eqn:Hfilter; [done|].
  assert (c ∈ filter (fun c => tag c = n ∧ is_excluded c = false) decls)
    as [[Hn Hc] Hin]%list_elem_of_filter by (rewrite Hfilter; left).
  rewrite (Hex c Hin Hn) in Hc. done.
Qed.

Lemma surviving_last before child after :
  is_excluded child = false →
  (∀ c, c ∈ after → tag c = tag child → is_excluded c = true) →
  surviving (tag child) (before ++ child :: after) = Some child.
Proof.
  intros Hchild Hafter. unfold surviving.
  rewrite filter_app, filter_cons_True by done.
  pose proof (surviving_None (tag child) after Hafter) as Hnone.
  unfold surviving in Hnone. apply last_None in Hnone. rewrite Hnone.
  apply last_snoc.
Qed.

Lemma surviving_Some n decls child :
  surviving n decls = Some child →
  child ∈ decls ∧ tag child = n ∧ is_excluded child = false.
Proof.
  unfold surviving. intros Hlast%last_Some_elem_of.
  apply list_elem_of_filter in Hlast. naive_solver.
Qed.

(** *** Induction on the resolution *)

Lemma resolve_ind (P : Results → Prop) :
  P empty_results →
  (∀ r inherited, P r → P inherited → P (merge_inherited r inherited)) →
  (∀ def_path root r,
     parse fs def_path = inr root → P r →
     P (local_definitions def_path root r).1) →
  ∀ base_path def_path visited, P (resolve fs base_path def_path visited).
Proof.
  intros Hempty Hmerge Hlocal base_path def_path visited.
  remember (remaining fs visited) as k eqn:Hk.
  revert def_path visited Hk.
  induction k as [k IH] using lt_wf_ind; intros def_path visited ->.
  rewrite resolve_unfold. unfold resolve_step.
  case_bool_decide as Hin; [done|].
  destruct (parse fs def_path) as [e|root] eqn:Hparse; [done|].
  assert (∀ interfaces r,
            P r → P (merge_interfaces fs base_path (visited ++ [def_path]) interfaces r))
    as Hloop.
  { intros interfaces. induction interfaces as [|i rest IHl]; intros r Hr; [done|].
    apply IHl, Hmerge; [done|]. unfold inherited_from.
    destruct (interface_def fs base_path i) as [q|]; [|done].
    eapply IH; [|done]. apply remaining_append; [done|].
    apply parse_Document in Hparse. by rewrite Hparse. }
  destruct (forallb has_text (interfaces_of root)); [apply (Hlocal _ _ _ Hparse)|];
    by apply Hloop.
Qed.

Lemma collect_methods_ind (P : Results → Prop) :
  P empty_results →
  (∀ r inherited, P r → P inherited → P (merge_inherited r inherited)) →
  (∀ def_path root r,
     parse fs def_path = inr root → P r →
     P (local_definitions def_path root r).1) →
  ∀ fuel base_path def_path visited r visited' out,
    collect_methods fs fuel base_path def_path visited = Some (r, visited', out) →
    P r.
Proof.
  intros Hempty Hmerge Hlocal fuel base_path def_path visited r visited' out Hrun.
  apply collect_methods_resolve in Hrun as [-> _]. by apply resolve_ind.
Qed.

(** Every entry of a result is a declaration of some file that is not
    excluded. *)
Lemma collect_methods_declared fuel base_path def_path visited r visited' out :
  collect_methods fs fuel base_path def_path visited = Some (r, visited', out) →
  ∀ section n d, getitem r section !! n = Some d → declared fs section n d.
Proof.
  revert fuel base_path def_path visited r visited' out.
  apply (collect_methods_ind
           (fun r => ∀ section n d,
              getitem r section !! n = Some d → declared fs section n d)).
  - intros section n d. by rewrite getitem_empty_results, lookup_empty.
  - intros r inh Hr Hinh section n d.
    rewrite getitem_merge_inherited. unfold dict_update.
    intros [?|[_ ?]]%lookup_union_Some_raw; eauto.
  - intros def_path root r Hparse Hr section n d.
    rewrite getitem_local_definitions, lookup_fold_add_decl.
    destruct (surviving n (local_decls section root)) as [child|] eqn:Hs; [|by eauto].
    intros [= <-]. apply surviving_Some in Hs as (Hin & Hn & Hex).
    apply is_excluded_false in Hex as [Hargs Hdd].
    exists def_path, root, child. by rewrite <- parse_Document.
Qed.

End ResultFacts.

(** ** C3: merge precedence *)

(** C3. For a definition whose interfaces are all resolved (every
    [Interface] element has text), an entry of the result is looked up in
    this order: the last local declaration of the name that is not
    excluded, with the descriptor of that declaration (for a method, its
    argument list); failing that, the entry of the interface declared
    latest in the file among those whose result has the name. The merged
    interfaces are thus in the dictionary before the local declarations
    are written, a later interface overrides an earlier one, and a local
    declaration replaces what was inherited. *)
Theorem merge_precedence fs fuel base_path def_path visited r visited' out
    root section n :
  collect_methods fs fuel base_path def_path visited = Some (r, visited', out) →
  def_path ∉ visited →
  parse fs def_path = inr root →
  forallb has_text (interfaces_of root) = true →
  getitem r section !! n =
  match surviving n (local_decls section root) with
  | Some child => Some (descriptor section child)
  | None =>
      latest
        (map (fun i =>
                getitem (inherited_from fs base_path (visited ++ [def_path]) i)
                  section !! n)
             (interfaces_of root))
  end.
Proof.
  intros Hrun Hnew Hparse Htext.
  rewrite (collect_methods_parsed fs _ _ _ _ _ _ _ root Hrun Hnew Hparse Htext).
  rewrite lookup_fold_add_decl.
  destruct (surviving n (local_decls section root)); [done|].
  by rewrite lookup_merge_interfaces, getitem_empty_results, lookup_empty.
Qed.

Lemma merge_precedence_witness :
  getitem Vehicle.result ClientMethods !! "takeDamage" =
  Some (DArgs ["INT32"; "STRING"]).
Proof.
  rewrite (merge_precedence Vehicle.fs 2 "/game" (entity_path "Vehicle") []
             Vehicle.result [] Vehicle.out Vehicle.root ClientMethods "takeDamage").
  - vm_compute. reflexivity.
  - vm_compute. reflexivity.
  - apply not_elem_of_nil.
  - vm_compute. reflexivity.
  - reflexivity.
Defined.

(** The scenario of the specification: [takeDamage] carries the two
    arguments of the local declaration, [ping] is left out. *)
Example vehicle_scenario :
  collect_methods Vehicle.fs 2 "/game" (entity_path "Vehicle") [] =
  Some (Vehicle.result, [], Vehicle.out).
Proof. by vm_compute. Qed.

(** ** C4: exclusion *)

(** C4. Every entry of a result is the descriptor of a declaration, in one
    of the parsed files, that has at least one [Arg] child and no
    [DetailDistance] child; a method entry never has an empty argument
    list; a name whose declarations, wherever they are, all have no [Arg]
    child or carry a [DetailDistance] child has no entry. A local
    declaration that is excluded writes nothing: when all the local
    declarations of a name are excluded, the entry of the name is the one
    the merged interfaces have, if any. *)
Theorem exclusion fs fuel base_path def_path visited r visited' out :
  collect_methods fs fuel base_path def_path visited = Some (r, visited', out) →
  (∀ section n d, getitem r section !! n = Some d → declared fs section n d)
  ∧ (∀ section n args, getitem r section !! n = Some (DArgs args) → args ≠ [])
  ∧ (∀ section n,
       (∀ path root child,
          fs !! path = Some (Document root) →
          child ∈ local_decls section root → tag child = n →
          arg_count child = 0 ∨ has_detail_distance child = true) →
       getitem r section !! n = None)
  ∧ (∀ root section n,
       def_path ∉ visited →
       parse fs def_path = inr root →
       forallb has_text (interfaces_of root) = true →
       (∀ child,
          child ∈ local_decls section root → tag child = n →
          arg_count child = 0 ∨ has_detail_distance child = true) →
       getitem r section !! n =
       getitem (merge_interfaces fs base_path (visited ++ [def_path])
                  (interfaces_of root) empty_results) section !! n).
Proof.
  intros Hrun.
  pose proof (collect_methods_declared fs _ _ _ _ _ _ _ Hrun) as Hdecl.
  split_and!.
  - done.
  - intros section n args (path & root & child & _ & _ & _ & Hargs & _ & Hd)%Hdecl.
    intros ->. destruct section; simpl in Hd; [|done|..];
      injection Hd as Hd; symmetry in Hd; apply map_eq_nil in Hd;
      unfold arg_count in Hargs; by rewrite Hd in Hargs.
  - intros section n Hall.
    destruct (getitem r section !! n) as [d|] eqn:Hd; [|done].
    apply Hdecl in Hd as (path & root & child & Hfile & Hin & Hn & Hargs & Hdd & _).
    destruct (Hall path root child Hfile Hin Hn); congruence.
  - intros root section n Hnew Hparse Htext Hall.
    rewrite (collect_methods_parsed fs _ _ _ _ _ _ _ root Hrun Hnew Hparse Htext).
    rewrite lookup_fold_add_decl, surviving_None; [done|].
    intros child Hin Hn.
    destruct (is_excluded child) eqn:Hex; [done|].
    apply is_excluded_false in Hex as [Hargs Hdd].
    destruct (Hall child Hin Hn); congruence.
Qed.

Lemma exclusion_witness :
  declared Vehicle.fs ClientMethods "takeDamage" (DArgs ["INT32"; "STRING"]).
Proof.
  refine (proj1 (exclusion Vehicle.fs 2 "/game" (entity_path "Vehicle") []
                   Vehicle.result [] Vehicle.out _)
            ClientMethods "takeDamage" (DArgs ["INT32"; "STRING"]) _).
  - vm_compute. reflexivity.
  - vm_compute. reflexivity.
Defined.

(** ** C10: one name declared twice in a file *)

(** C10. When the declarations of a section hold several declarations of
    one name, the entry of the name is the descriptor of the last of them
    that is not excluded: a declaration after which every declaration of
    the same name is excluded is the one the result has. *)
Theorem duplicate_declarations fs fuel base_path def_path visited r visited' out
    root section before child after :
  collect_methods fs fuel base_path def_path visited = Some (r, visited', out) →
  def_path ∉ visited →
  parse fs def_path = inr root →
  forallb has_text (interfaces_of root) = true →
  local_decls section root = before ++ child :: after →
  is_excluded child = false →
  (∀ c, c ∈ after → tag c = tag child → is_excluded c = true) →
  getitem r section !! tag child = Some (descriptor section child).
Proof.
  intros Hrun Hnew Hparse Htext Hdecls Hchild Hafter.
  rewrite (collect_methods_parsed fs _ _ _ _ _ _ _ root Hrun Hnew Hparse Htext).
  by rewrite lookup_fold_add_decl, Hdecls, surviving_last.
Qed.

Lemma duplicate_declarations_witness :
  getitem Duplicates.result ClientMethods !! "m" = Some (DArgs ["STRING"; "FLOAT"]).
Proof.
  apply (duplicate_declarations Duplicates.fs 1 "/game" (entity_path "E") []
           Duplicates.result [] [] Duplicates.root ClientMethods
           [method "m" ["INT32"]] (method "m" ["STRING"; "FLOAT"]) [method "m" []]).
  - vm_compute. reflexivity.
  - apply not_elem_of_nil.
  - vm_compute. reflexivity.
  - reflexivity.
  - reflexivity.
  - reflexivity.
  - intros c Hc _. apply list_elem_of_singleton in Hc. rewrite Hc. reflexivity.
Defined.

(** ** Cycles, missing files and failures *)

Section Failures.

Variable fs : gmap string FileContent.

Lemma collect_methods_cycle fuel base_path def_path visited :
  def_path ∈ visited →
  collect_methods fs (S fuel) base_path def_path visited =
  Some (empty_results, visited, [CycleDetected def_path]).
Proof. intros Hin. by rewrite collect_methods_S, bool_decide_true. Qed.

Lemma collect_methods_parse_failure fuel base_path def_path visited e :
  def_path ∉ visited →
  parse fs def_path = inl e →
  collect_methods fs (S fuel) base_path def_path visited =
  Some (empty_results, visited, [ErrorFailedToParse def_path e]).
Proof.
  intros Hnew Hparse. rewrite collect_methods_S, bool_decide_false by done.
  unfold try_body. rewrite Hparse. unfold ret. by rewrite removelast_last.
Qed.

(** A call that parses its file: the loop over the interfaces, then
    either the line of the [except] clause or the local definitions. *)
Lemma collect_methods_parsed_S fuel base_path def_path visited root :
  def_path ∉ visited →
  parse fs def_path = inr root →
  collect_methods fs (S fuel) base_path def_path visited =
  match implements_loop fs (collect_methods fs fuel base_path) base_path
          (interfaces_of root) empty_results (visited ++ [def_path]) with
  | None => None
  | Some ((r, Some e), visited1, out) =>
      Some (r, removelast visited1, out ++ [ErrorFailedToParse def_path e])
  | Some ((r, None), visited1, out) =>
      Some ((local_definitions def_path root r).1, removelast visited1,
            out ++ (local_definitions def_path root r).2)
  end.
Proof.
  intros Hnew Hparse. rewrite collect_methods_S, bool_decide_false by done.
  unfold try_body, interfaces_of. rewrite Hparse. unfold bind at 1.
  destruct (find "Implements" root) as [implements|].
  - destruct (implements_loop _ _ _ _ _ _) as [[[[r [e|]] v1] o]|]; [| |done];
      unfold bind, printing, ret; simpl; by rewrite ?app_nil_r.
  - unfold bind, printing, ret; simpl; by rewrite ?app_nil_r.
Qed.

(** The loop when the interface at its head is on the list. *)
Lemma implements_loop_cycle fuel base_path interface t p rest results visited :
  text interface = Some t →
  interface_def fs base_path interface = Some p →
  p ∈ visited →
  implements_loop fs (collect_methods fs (S fuel) base_path) base_path
    (interface :: rest) results visited =
  match implements_loop fs (collect_methods fs (S fuel) base_path) base_path
          rest results visited with
  | Some (x, visited', out) =>
      Some (x, visited',
            (get_def_path fs base_path (Py.strip t)).2
            ++ [CycleDetected p] ++ out)
  | None => None
  end.
Proof.
  intros Ht Hdef Hin.
  rewrite (implements_loop_found fs _ _ _ t p) by done.
  by rewrite collect_methods_cycle, merge_inherited_empty.
Qed.

(** The loop when the file of the interface at its head does not parse. *)
Lemma implements_loop_parse_failure fuel base_path interface t p e rest
    results visited :
  text interface = Some t →
  interface_def fs base_path interface = Some p →
  p ∉ visited →
  parse fs p = inl e →
  implements_loop fs (collect_methods fs (S fuel) base_path) base_path
    (interface :: rest) results visited =
  match implements_loop fs (collect_methods fs (S fuel) base_path) base_path
          rest results visited with
  | Some (x, visited', out) =>
      Some (x, visited',
            (get_def_path fs base_path (Py.strip t)).2
            ++ [ErrorFailedToParse p e] ++ out)
  | None => None
  end.
Proof.
  intros Ht Hdef Hnew Hparse.
  rewrite (implements_loop_found fs _ _ _ t p) by done.
  by rewrite (collect_methods_parse_failure _ _ _ _ e), merge_inherited_empty.
Qed.

Lemma collect_methods_enough base_path def_path visited :
  is_Some (collect_methods fs (S (size fs)) base_path def_path visited).
Proof.
  apply collect_methods_returns.
  pose proof (remaining_le_size fs visited). lia.
Qed.

(** *** The loop over the entity types *)

Lemma entities_loop_returns game_path entity_types full_data :
  is_Some (entities_loop fs game_path entity_types full_data).
Proof.
  revert full_data.
  induction entity_types as [|[ent_id ent_name] rest IH]; intros full_data;
    cbn [entities_loop]; [done|].
  destruct (get_def_path fs game_path ent_name) as [[p|] out1].
  - destruct (Py.truthy p).
    + destruct (collect_methods_enough game_path p []) as [[[data v] out2] ->].
      by destruct (IH (<[ent_id:=entity_json ent_id ent_name data]> full_data))
        as [[full' out3] ->].
    + by destruct (IH full_data) as [[full' out3] ->].
  - by destruct (IH full_data) as [[full' out3] ->].
Qed.

Lemma entities_loop_other game_path entity_types full_data full_data' out ent_id :
  entities_loop fs game_path entity_types full_data = Some (full_data', out) →
  ent_id ∉ entity_types.*1 →
  full_data' !! ent_id = full_data !! ent_id.
Proof.
  revert full_data out.
  induction entity_types as [|[id0 name0] rest IH]; intros full_data out;
    cbn [entities_loop fmap list_fmap fst].
  { by intros [= <- _]. }
  intros Hrun [Hne Hrest]%not_elem_of_cons.
  destruct (get_def_path fs game_path name0) as [[p|] out1].
  - destruct (Py.truthy p).
    + destruct (collect_methods fs (S (size fs)) game_path p [])
        as [[[data v] out2]|]; [|done].
      destruct (entities_loop fs game_path rest _) as [[full' out3]|] eqn:Hloop;
        [|done].
      injection Hrun as <- _. rewrite (IH _ _ Hloop Hrest).
      by rewrite lookup_insert_ne.
    + destruct (entities_loop fs game_path rest _) as [[full' out3]|] eqn:Hloop;
        [|done].
      injection Hrun as <- _. by rewrite (IH _ _ Hloop Hrest).
  - destruct (entities_loop fs game_path rest _) as [[full' out3]|] eqn:Hloop;
      [|done].
    injection Hrun as <- _. by rewrite (IH _ _ Hloop Hrest).
Qed.

(** The entry of an entity whose definition file is found is the one
    built from its own resolution, whatever the other entities do. *)
Lemma entities_loop_lookup game_path entity_types full_data full_data' out
    ent_id ent_name p :
  entities_loop fs game_path entity_types full_data = Some (full_data', out) →
  NoDup entity_types.*1 →
  (ent_id, ent_name) ∈ entity_types →
  (get_def_path fs game_path ent_name).1 = Some p →
  Py.truthy p = true →
  full_data' !! ent_id =
  Some (entity_json ent_id ent_name (resolve fs game_path p [])).
Proof.
  revert full_data out.
  induction entity_types as [|[id0 name0] rest IH]; intros full_data out.
  { intros _ _ Hin. by apply elem_of_nil in Hin. }
  cbn [entities_loop fmap list_fmap fst].
  intros Hrun [Hid0 Hnodup]%NoDup_cons Hin Hdef Htruthy.
  apply elem_of_cons in Hin as [[= <- <-]|Hin].
  - destruct (get_def_path fs game_path ent_name) as [[q|] out1];
      simpl in Hdef; [|done]. injection Hdef as ->. rewrite Htruthy in Hrun.
    destruct (collect_methods fs (S (size fs)) game_path p [])
      as [[[data v] out2]|] eqn:Hdata; [|done].
    apply collect_methods_resolve in Hdata as [-> _].
    destruct (entities_loop fs game_path rest _) as [[full' out3]|] eqn:Hloop;
      [|done].
    injection Hrun as <- _.
    rewrite (entities_loop_other _ _ _ _ _ _ Hloop Hid0).
    by rewrite lookup_insert_eq.
  - destruct (get_def_path fs game_path name0) as [[q|] out1].
    + destruct (Py.truthy q).
      * destruct (collect_methods fs (S (size fs)) game_path q [])
          as [[[data v] out2]|]; [|done].
        destruct (entities_loop fs game_path rest _) as [[full' out3]|] eqn:Hloop;
          [|done].
        injection Hrun as <- _. by eapply IH.
      * destruct (entities_loop fs game_path rest _) as [[full' out3]|] eqn:Hloop;
          [|done].
        injection Hrun as <- _. by eapply IH.
    + destruct (entities_loop fs game_path rest _) as [[full' out3]|] eqn:Hloop;
        [|done].
      injection Hrun as <- _. by eapply IH.
Qed.

End Failures.

Lemma entities_all_resolved fs : every_entity_resolved fs.
Proof.
  intros game_path entity_types full_data.
  destruct (entities_loop_returns fs game_path entity_types full_data)
    as [[full_data' out] Hrun].
  exists full_data', out. split; [done|].
  intros Hnodup ent_id ent_name p Hin Hdef Htruthy.
  by eapply entities_loop_lookup.
Qed.

Ltac not_in_list := apply (bool_decide_unpack _); vm_compute; exact I.

(** ** C5: cycles and termination *)

(** [A] implements [B] and [C], [B] implements [A]: the call for [A] ends,
    the branch through [B] stops where it reaches [A] again, and the
    members of [B] and of [C] are in the result. *)
Example cycle_scenario :
  collect_methods Cycle.fs 3 "/game" (entity_path "A") [] =
  Some (Cycle.result, [], Cycle.out).
Proof. by vm_compute. Qed.

(** ** C8: an interface without a definition file *)

(** [F] implements [Broken], [Missing] and [I]: the first does not parse,
    the second has no file, and the members of [I] are in the result. *)
Example failures_scenario :
  collect_methods Failures.fs 2 "/game" (entity_path "F") [] =
  Some (Failures.partial, [],
        [DebugFound "Broken.def" (interface_path "Broken");
         ErrorFailedToParse (interface_path "Broken") ParseError;
         DebugCouldNotFind "Missing.def" "/game";
         WarningInterfaceNotFound "Missing";
         DebugFound "I.def" (interface_path "I")]).
Proof. by vm_compute. Qed.

(** ** C7: failures while a definition is read *)

(** C7. The code at a definition whose processing fails after parsing.
    [E] implements [I], then has an [Interface] element without text: the
    [strip] on it raises, the [except] clause prints the error, and the
    call returns the dictionary as it is at that point, with the member
    [m] merged from [I]: a partial result, where the specification has
    the node contribute nothing, as the code does when the file does not
    parse. Neither the interface [J] listed after the failing element nor
    the local declaration [local] is in the result. *)
Lemma attribute_error_keeps_partial_result :
  collect_methods Failures.fs 2 "/game" (entity_path "E") [] =
    Some (Failures.partial, [],
          [DebugFound "I.def" (interface_path "I");
           ErrorFailedToParse (entity_path "E") AttributeError])
  ∧ Failures.partial ≠ empty_results.
Proof. split; by vm_compute. Qed.

(** What a call returns when an [Interface] element of its definition has
    no text: the interfaces before that element merged, none of the local
    declarations, and the error as the last line printed. *)
Lemma attribute_error_result fs fuel base_path def_path visited root r visited' out :
  def_path ∉ visited →
  parse fs def_path = inr root →
  forallb has_text (interfaces_of root) = false →
  collect_methods fs (S fuel) base_path def_path visited = Some (r, visited', out) →
  r = merge_interfaces fs base_path (visited ++ [def_path])
        (until_no_text (interfaces_of root)) empty_results
  ∧ visited' = visited
  ∧ last out = Some (ErrorFailedToParse def_path AttributeError).
Proof.
  intros Hnew Hparse Htext.
  rewrite (collect_methods_parsed_S fs _ _ _ _ root) by done.
  destruct (implements_loop _ _ _ _ _ _) as [[[[r1 raised] v1] o]|] eqn:Hloop;
    [|done].
  apply implements_loop_result in Hloop as (-> & -> & ->).
  rewrite Htext. intros [= <- <- <-].
  by rewrite removelast_last, last_snoc.
Qed.

(** The failures that are handled as the specification says. A
    definition whose file does not parse contributes four empty
    dictionaries, as a missing one does; the failure is caught in the call
    for that definition, which prints the error and leaves the list as it
    was, and the loop of the caller goes on with the interfaces that
    follow on the dictionaries it had. A failure raised after parsing is
    caught in the call and printed in the same way, and the list is left
    as it was. Either way the call returns, and the loop over the entity
    types runs to its end. *)
Theorem failure_is_local fs fuel base_path def_path visited :
  def_path ∉ visited →
  (∀ e,
     parse fs def_path = inl e →
     collect_methods fs (S fuel) base_path def_path visited =
     Some (empty_results, visited, [ErrorFailedToParse def_path e]))
  ∧ (∀ e interface t rest results,
       parse fs def_path = inl e →
       text interface = Some t →
       interface_def fs base_path interface = Some def_path →
       implements_loop fs (collect_methods fs (S fuel) base_path) base_path
         (interface :: rest) results visited =
       match implements_loop fs (collect_methods fs (S fuel) base_path) base_path
               rest results visited with
       | Some (x, visited', out) =>
           Some (x, visited',
                 (get_def_path fs base_path (Py.strip t)).2
                 ++ [ErrorFailedToParse def_path e] ++ out)
       | None => None
       end)
  ∧ (∀ root r visited' out,
       parse fs def_path = inr root →
       forallb has_text (interfaces_of root) = false →
       collect_methods fs (S fuel) base_path def_path visited =
       Some (r, visited', out) →
       visited' = visited
       ∧ last out = Some (ErrorFailedToParse def_path AttributeError))
  ∧ is_Some (collect_methods fs (S (size fs)) base_path def_path visited)
  ∧ every_entity_resolved fs.
Proof.
  intros Hnew. split_and!.
  - intros e Hparse. by apply collect_methods_parse_failure.
  - intros e interface t rest results Hparse Ht Hdef.
    by apply implements_loop_parse_failure.
  - intros root r visited' out Hparse Htext Hrun.
    by destruct (attribute_error_result fs _ _ _ _ _ _ _ _
                   Hnew Hparse Htext Hrun) as (_ & ? & ?).
  - apply collect_methods_enough.
  - apply entities_all_resolved.
Qed.

Lemma failure_is_local_witness :
  collect_methods Failures.fs 1 "/game" (interface_path "Broken")
    [entity_path "F"] =
  Some (empty_results, [entity_path "F"],
        [ErrorFailedToParse (interface_path "Broken") ParseError]).
Proof.
  refine (proj1 (failure_is_local Failures.fs 0 "/game" (interface_path "Broken")
                   [entity_path "F"] _) ParseError _).
  - not_in_list.
  - vm_compute. reflexivity.
Defined.

(** ** C9: determinism *)

(** C9. Two calls for the same definition over the same files return the
    same four dictionaries and print the same lines. The second call is
    run on the list the first one has left behind, which is the list the
    first one was given, and the fuel the two runs are given does not
    matter. Nothing is assumed on the interface graph: it holds for the
    acyclic graphs the specification speaks of and for the others. *)
Theorem deterministic fs base_path def_path visited fuel1 fuel2
    r1 visited1 out1 r2 visited2 out2 :
  collect_methods fs fuel1 base_path def_path visited = Some (r1, visited1, out1) →
  collect_methods fs fuel2 base_path def_path visited1 = Some (r2, visited2, out2) →
  r1 = r2 ∧ out1 = out2 ∧ visited2 = visited.
Proof.
  intros H1 H2.
  pose proof (keeps_collect_methods fs _ _ _ _ _ _ _ H1) as ->.
  pose proof (collect_methods_fuel_agree fs _ _ _ _ _ _ _ H1 H2) as [= -> -> ->].
  done.
Qed.

Lemma deterministic_witness :
  Vehicle.result = Vehicle.result ∧ Vehicle.out = Vehicle.out ∧ [] = @nil string.
Proof.
  apply (deterministic Vehicle.fs "/game" (entity_path "Vehicle") [] 2 5
           Vehicle.result [] Vehicle.out Vehicle.result [] Vehicle.out).
  - vm_compute. reflexivity.
  - vm_compute. reflexivity.
Defined.

(** ** C6: index assignment *)

Lemma list_to_map_enumerate {B} (f : string → B) (l : list string) start :
  list_to_map (map (fun '(i, k) => (i, f k)) (imap (fun i x => (start + i, x)) l))
  =@{gmap nat B} map_seq start (f <$> l).
Proof.
  revert start. induction l as [|k l IH]; intros start; [done|].
  rewrite imap_cons. cbn [map fmap list_fmap]. rewrite Nat.add_0_r.
  rewrite list_to_map_cons, map_seq_cons. f_equal.
  rewrite <- IH. do 2 f_equal. apply imap_ext. intros i x _. simpl.
  f_equal. lia.
Qed.

Lemma lookup_to_indexed_dict (data_dict : gmap string Descriptor) i :
  to_indexed_dict data_dict !! i =
  (fun k => mkEntry k (data_dict !!! k)) <$> sorted (keys data_dict) !! i.
Proof.
  unfold to_indexed_dict, enumerate.
  rewrite (list_to_map_enumerate (fun k => mkEntry k (data_dict !!! k)) _ 0).
  by rewrite lookup_map_seq_0, list_lookup_fmap.
Qed.

Lemma elem_of_keys (data_dict : gmap string Descriptor) k :
  k ∈ keys data_dict ↔ is_Some (data_dict !! k).
Proof.
  unfold keys. rewrite list_elem_of_fmap. split.
  - intros ([k' d] & -> & Hin). apply elem_of_map_to_list in Hin. by exists d.
  - intros [d Hd]. exists (k, d). split; [done|]. by apply elem_of_map_to_list.
Qed.

Lemma NoDup_keys (data_dict : gmap string Descriptor) : NoDup (keys data_dict).
Proof. apply NoDup_fst_map_to_list. Qed.

Lemma sorted_Permutation l : sorted l ≡ₚ l.
Proof. apply merge_sort_Permutation. Qed.

Lemma sorted_StronglySorted l : StronglySorted String.le (sorted l).
Proof. apply StronglySorted_merge_sort; apply _. Qed.

(** The sorted keys depend on the set of names only. *)
Lemma sorted_keys_dom (d1 d2 : gmap string Descriptor) :
  dom d1 = dom d2 → sorted (keys d1) = sorted (keys d2).
Proof.
  intros Hdom.
  apply (StronglySorted_unique String.le); [apply sorted_StronglySorted..|].
  rewrite !sorted_Permutation.
  apply NoDup_Permutation; [apply NoDup_keys..|].
  intros k. by rewrite !elem_of_keys, <- !elem_of_dom, Hdom.
Qed.

(** C6. The keys of the indexed dictionary are the positions [0] to
    [n - 1] in the list of the member names sorted by code point, each
    name carrying its descriptor: the list is sorted, has no name twice,
    and holds the names of the dictionary and nothing else. Two
    dictionaries with the same names give every name the same index. The
    four categories of an entity go through the same function. For the
    names [onHealthChanged] and [onAmmoChanged], [onAmmoChanged] gets
    index [0] and [onHealthChanged] index [1]. *)
Theorem index_assignment (data_dict : gmap string Descriptor) :
  StronglySorted String.le (sorted (keys data_dict))
  ∧ NoDup (sorted (keys data_dict))
  ∧ (∀ k, k ∈ sorted (keys data_dict) ↔ is_Some (data_dict !! k))
  ∧ length (sorted (keys data_dict)) = size data_dict
  ∧ (∀ i, to_indexed_dict data_dict !! i =
          (fun k => mkEntry k (data_dict !!! k)) <$> sorted (keys data_dict) !! i)
  ∧ (∀ i, is_Some (to_indexed_dict data_dict !! i) ↔ i < size data_dict)
  ∧ (∀ other : gmap string Descriptor,
       dom other = dom data_dict →
       name <$> to_indexed_dict other = name <$> to_indexed_dict data_dict)
  ∧ (∀ ent_id ent_name data,
       entity_json ent_id ent_name data =
       mkEntityJson ent_id ent_name
         (to_indexed_dict (getitem data ClientMethods))
         (to_indexed_dict (getitem data Properties))
         (to_indexed_dict (getitem data CellMethods))
         (to_indexed_dict (getitem data BaseMethods)))
  ∧ (∀ x y,
       to_indexed_dict {[ "onHealthChanged" := x; "onAmmoChanged" := y ]} =
       {[ 0 := mkEntry "onAmmoChanged" y; 1 := mkEntry "onHealthChanged" x ]}).
Proof.
  assert (length (sorted (keys data_dict)) = size data_dict) as Hlen.
  { rewrite sorted_Permutation. unfold keys.
    by rewrite length_fmap, length_map_to_list. }
  split_and!.
  - apply sorted_StronglySorted.
  - rewrite sorted_Permutation. apply NoDup_keys.
  - intros k. rewrite sorted_Permutation. apply elem_of_keys.
  - done.
  - apply lookup_to_indexed_dict.
  - intros i. rewrite lookup_to_indexed_dict, fmap_is_Some, <- Hlen.
    apply lookup_lt_is_Some.
  - intros other Hdom. apply map_eq. intros i.
    rewrite !lookup_fmap, !lookup_to_indexed_dict, (sorted_keys_dom _ _ Hdom).
    by destruct (sorted (keys data_dict) !! i).
  - done.
  - intros x y. by vm_compute.
Qed.

Lemma index_assignment_witness :
  name <$> to_indexed_dict {[ "onHealthChanged" := DArgs ["INT32"];
                              "onAmmoChanged" := DArgs ["INT8"] ]} =
  name <$> to_indexed_dict {[ "onAmmoChanged" := DArgs ["STRING"; "FLOAT"];
                              "onHealthChanged" := DArgs ["FLOAT"] ]}.
Proof.
  refine (proj1 (proj2 (proj2 (proj2 (proj2 (proj2 (proj2
            (index_assignment
               {[ "onAmmoChanged" := DArgs ["STRING"; "FLOAT"];
                  "onHealthChanged" := DArgs ["FLOAT"] ]}))))))) _ _).
  vm_compute. reflexivity.
Defined.

(** * Further properties of the code *)

(** ** Looking up files *)

Lemma find_first {A} (f : A → bool) (l : list A) :
  match List.find f l with
  | Some x =>
      ∃ before after,
        l = before ++ x :: after ∧ f x = true ∧ Forall (fun y => f y = false) before
  | None => Forall (fun y => f y = false) l
  end.
Proof.
  induction l as [|a l IH]; simpl; [by constructor|].
  destruct (f a) eqn:Ha.
  - exists [], l. by repeat split.
  - destruct (List.find f l) as [x|].
    + destruct IH as (before & after & -> & Hx & Hbefore).
      exists (a :: before), after. repeat split; [done|]. by constructor.
    + by constructor.
Qed.

Lemma exists_false fs p : exists_ fs p = false ↔ fs !! p = None.
Proof.
  unfold exists_. rewrite bool_decide_eq_false, <- eq_None_not_Some. done.
Qed.

Lemma exists_true fs p : exists_ fs p = true ↔ is_Some (fs !! p).
Proof. unfold exists_. by rewrite bool_decide_eq_true. Qed.

(** X1. [find_file] returns the first candidate that exists: the path it
    returns is one of the candidates built on the normalised base path, it
    exists, no candidate tried before it does, and the line printed names
    it. It returns [None] exactly when no candidate exists, and says
    so. *)
Theorem find_file_first fs base_path filename search_subdirs found out :
  find_file fs base_path filename search_subdirs = (found, out) →
  match found with
  | Some p =>
      ∃ before after,
        candidates (posixpath.normpath base_path) filename search_subdirs
          = before ++ p :: after
        ∧ is_Some (fs !! p)
        ∧ Forall (fun q => fs !! q = None) before
        ∧ out = [DebugFound filename p]
  | None =>
      Forall (fun q => fs !! q = None)
        (candidates (posixpath.normpath base_path) filename search_subdirs)
      ∧ out = [DebugCouldNotFind filename (posixpath.normpath base_path)]
  end.
Proof.
  unfold find_file.
  pose proof (find_first (exists_ fs)
                (candidates (posixpath.normpath base_path) filename search_subdirs))
    as Hfirst.
  destruct (List.find _ _) as [p|]; intros [= <- <-].
  - destruct Hfirst as (before & after & Hl & Hp & Hbefore).
    exists before, after. split_and!; [done|by apply exists_true| |done].
    eapply Forall_impl; [done|]. intros q. by rewrite exists_false.
  - split; [|done]. eapply Forall_impl; [done|]. intros q. by rewrite exists_false.
Qed.

Lemma find_file_first_witness :
  ∃ before after,
    candidates (posixpath.normpath "/game/") "Shared.def"
      ["entity_defs"; "entity_defs/interfaces"]
      = before ++ interface_path "Shared" :: after
    ∧ is_Some (Tank.fs !! interface_path "Shared")
    ∧ Forall (fun q => Tank.fs !! q = None) before
    ∧ [DebugFound "Shared.def" (interface_path "Shared")]
      = [DebugFound "Shared.def" (interface_path "Shared")].
Proof.
  apply (find_file_first Tank.fs "/game/" "Shared.def"
           ["entity_defs"; "entity_defs/interfaces"]
           (Some (interface_path "Shared"))
           [DebugFound "Shared.def" (interface_path "Shared")]).
  vm_compute. reflexivity.
Defined.

Lemma append_cons c s t : String c s +:+ t = String c (s +:+ t).
Proof. done. Qed.

Lemma append_nil_l t : "" +:+ t = t.
Proof. done. Qed.

Lemma rev_app_append_r s1 s2 s3 :
  String.rev_app s1 s2 +:+ s3 = String.rev_app s1 (s2 +:+ s3).
Proof.
  revert s2. induction s1 as [|c s1 IH]; intros s2; simpl; [done|].
  by rewrite IH, append_cons.
Qed.

Lemma rev_append x b : String.rev (x +:+ b) = String.rev b +:+ String.rev x.
Proof.
  unfold String.rev. rewrite rev_app_append_r, append_nil_l.
  generalize "". induction x as [|c x IH]; intros acc.
  - by rewrite append_nil_l.
  - rewrite append_cons. simpl. apply IH.
Qed.

Lemma prefix_append p q : String.prefix p (p +:+ q) = true.
Proof.
  induction p as [|c p IH]; [by destruct q|].
  rewrite append_cons. simpl. by destruct (ascii_dec c c).
Qed.

Lemma endswith_append x b : Py.endswith b (x +:+ b) = true.
Proof. unfold Py.endswith. rewrite rev_append. apply prefix_append. Qed.

Lemma truthy_append x b : Py.truthy b = true → Py.truthy (x +:+ b) = true.
Proof. destruct x; [done|]. by rewrite append_cons. Qed.

Lemma append_assoc s1 s2 s3 : (s1 +:+ s2) +:+ s3 = s1 +:+ s2 +:+ s3.
Proof.
  induction s1 as [|c s1 IH]; [done|]. by rewrite !append_cons, IH.
Qed.

(** The last component of a joined path is its end. *)
Lemma join_last a l b : ∃ x, posixpath.join a (l ++ [b]) = x +:+ b.
Proof.
  unfold posixpath.join. rewrite fold_left_app. cbn [fold_left].
  generalize (fold_left
    (fun path b0 =>
       if Py.startswith "/" b0 then b0
       else if negb (Py.truthy path) || Py.endswith "/" path then path +:+ b0
       else path +:+ "/" +:+ b0) l a).
  intros path. destruct (Py.startswith "/" b).
  - by exists "".
  - destruct (negb (Py.truthy path) || Py.endswith "/" path).
    + by exists path.
    + exists (path +:+ "/"). symmetry. apply append_assoc.
Qed.

Lemma candidates_end base_path filename search_subdirs p :
  p ∈ candidates base_path filename search_subdirs →
  ∃ x, p = x +:+ filename.
Proof.
  unfold candidates. rewrite elem_of_app. intros [Hin|Hin].
  - repeat (apply elem_of_cons in Hin as [->|Hin]);
      [apply (join_last _ [])|apply (join_last _ ["scripts"])
      |apply (join_last _ ["res"; "scripts"])
      |apply (join_last _ ["source"; "res"; "scripts"])|by apply elem_of_nil in Hin].
  - apply list_elem_of_In, in_flat_map in Hin as (sub & _ & Hin).
    apply list_elem_of_In in Hin.
    repeat (apply elem_of_cons in Hin as [->|Hin]);
      [apply (join_last _ [sub])|apply (join_last _ ["scripts"; sub])
      |apply (join_last _ ["res"; "scripts"; sub])
      |apply (join_last _ ["source"; "res"; "scripts"; sub])
      |by apply elem_of_nil in Hin].
Qed.

(** X2. A path [get_def_path] returns is the path of an existing file, it
    ends with the name of the definition followed by [.def], and it is a
    non-empty string: the tests [if interface_def:] and [if not def_path:]
    never take a file that was found for a missing one, and
    [collect_methods] is never sent to a file that does not exist. *)
Theorem get_def_path_found fs base_path entity_name p out :
  get_def_path fs base_path entity_name = (Some p, out) →
  is_Some (fs !! p)
  ∧ Py.endswith (entity_name +:+ ".def") p = true
  ∧ Py.truthy p = true
  ∧ parse fs p ≠ inl FileNotFoundError.
Proof.
  unfold get_def_path, find_file.
  pose proof (find_first (exists_ fs)
    (candidates (posixpath.normpath base_path) (entity_name +:+ ".def")
       ["entity_defs"; "entity_defs/interfaces"])) as Hfirst.
  destruct (List.find _ _) as [q|]; intros [= <- <-].
  destruct Hfirst as (before & after & Hl & [d Hq]%exists_true & _).
  assert (q ∈ candidates (posixpath.normpath base_path) (entity_name +:+ ".def")
            ["entity_defs"; "entity_defs/interfaces"]) as Hin.
  { rewrite Hl. apply elem_of_app. right. left. }
  apply candidates_end in Hin as [x ->].
  split_and!.
  - by exists d.
  - apply endswith_append.
  - apply truthy_append. by destruct entity_name.
  - unfold parse. rewrite Hq. by destruct d.
Qed.

Lemma get_def_path_found_witness :
  is_Some (Tank.fs !! interface_path "Shared")
  ∧ Py.endswith ("Shared" +:+ ".def") (interface_path "Shared") = true
  ∧ Py.truthy (interface_path "Shared") = true
  ∧ parse Tank.fs (interface_path "Shared") ≠ inl FileNotFoundError.
Proof.
  apply (get_def_path_found Tank.fs "/game" "Shared" (interface_path "Shared")
           [DebugFound "Shared.def" (interface_path "Shared")]).
  vm_compute. reflexivity.
Defined.

(** ** What a resolution keeps *)

Lemma fold_add_decl_keeps section decls d n :
  is_Some (d !! n) → is_Some (fold_left (add_decl section) decls d !! n).
Proof.
  rewrite lookup_fold_add_decl. by destruct (surviving n decls).
Qed.

Lemma merge_interfaces_keeps fs base_path visited interfaces results section n :
  is_Some (getitem results section !! n)
  ∨ (∃ i, i ∈ interfaces
          ∧ is_Some (getitem (inherited_from fs base_path visited i) section !! n)) →
  is_Some (getitem (merge_interfaces fs base_path visited interfaces results)
             section !! n).
Proof.
  unfold merge_interfaces. revert results.
  induction interfaces as [|i rest IH]; intros results.
  { intros [H|(i & Hin & _)]; [done|by apply elem_of_nil in Hin]. }
  intros H. cbn [fold_left]. apply IH.
  rewrite getitem_merge_inherited. unfold dict_update. rewrite lookup_union.
  destruct H as [H|(j & [->|Hin]%elem_of_cons & Hj)].
  - left. destruct H as [d ->].
    by destruct (getitem (inherited_from fs base_path visited i) section !! n).
  - left. destruct Hj as [d ->]. by destruct (getitem results section !! n).
  - right. by exists j.
Qed.

(** X3. An entity has every member of every interface it lists: for a
    definition that is processed to the end, a name that is in the result
    of one of its interfaces is in its own result, whatever the local
    declarations and the other interfaces are. The exclusion rules remove
    nothing that was inherited. *)
Theorem interface_members_kept fs fuel base_path def_path visited r visited' out
    root interface section n :
  collect_methods fs fuel base_path def_path visited = Some (r, visited', out) →
  def_path ∉ visited →
  parse fs def_path = inr root →
  forallb has_text (interfaces_of root) = true →
  interface ∈ interfaces_of root →
  is_Some (getitem (inherited_from fs base_path (visited ++ [def_path]) interface)
             section !! n) →
  is_Some (getitem r section !! n).
Proof.
  intros Hrun Hnew Hparse Htext Hin Hn.
  rewrite (collect_methods_parsed fs _ _ _ _ _ _ _ root Hrun Hnew Hparse Htext).
  apply fold_add_decl_keeps, merge_interfaces_keeps. right. by exists interface.
Qed.

Lemma interface_members_kept_witness :
  is_Some (getitem Cycle.result ClientMethods !! "b").
Proof.
  apply (interface_members_kept Cycle.fs 3 "/game" (entity_path "A") []
           Cycle.result [] Cycle.out
           (Elem "root" None [implements ["B"; "C"]])
           (Elem "Interface" (Some "B") []) ClientMethods "b").
  - vm_compute. reflexivity.
  - apply not_elem_of_nil.
  - vm_compute. reflexivity.
  - reflexivity.
  - left.
  - vm_compute. eexists. reflexivity.
Defined.

(** X4. The four sections do not interfere: what the local definitions
    leave in one section depends on the declarations of that section and
    on what the section held before, and on nothing else, neither the
    other sections of the file nor the path of the file that switches the
    debugging lines on. *)
Theorem sections_do_not_interfere def_path1 def_path2 root1 root2 r1 r2 section :
  local_decls section root1 = local_decls section root2 →
  getitem r1 section = getitem r2 section →
  getitem (local_definitions def_path1 root1 r1).1 section =
  getitem (local_definitions def_path2 root2 r2).1 section.
Proof.
  intros Hdecls Hsection. by rewrite !getitem_local_definitions, Hdecls, Hsection.
Qed.

Lemma sections_do_not_interfere_witness :
  getitem
    (local_definitions (entity_path "Vehicle") Vehicle.root empty_results).1
    ClientMethods =
  getitem
    (local_definitions (entity_path "E")
       (Elem "root" None
          [Elem "Properties" None [property "speed" "FLOAT"];
           Elem "ClientMethods" None
             [method "takeDamage" ["INT32"; "STRING"]; method "ping" []]])
       (setitem empty_results CellMethods {[ "move" := DArgs ["VECTOR3"] ]})).1
    ClientMethods.
Proof.
  apply sections_do_not_interfere.
  - reflexivity.
  - reflexivity.
Defined.

(** ** The shape of the descriptors *)

Lemma rstrip_cons c s :
  Py.rstrip (String c s) =
  match Py.rstrip s with
  | "" => if Py.isspace c then "" else String c ""
  | r => String c r
  end.
Proof. done. Qed.

Lemma rstrip_idemp s : Py.rstrip (Py.rstrip s) = Py.rstrip s.
Proof.
  induction s as [|c s IH]; [done|]. rewrite rstrip_cons.
  destruct (Py.rstrip s) as [|a r] eqn:Hr.
  - destruct (Py.isspace c) eqn:Hc; [done|]. simpl. by rewrite Hc.
  - by rewrite rstrip_cons, IH.
Qed.

Lemma lstrip_rstrip_lstrip s :
  Py.lstrip (Py.rstrip (Py.lstrip s)) = Py.rstrip (Py.lstrip s).
Proof.
  induction s as [|c s IH]; [done|]. simpl.
  destruct (Py.isspace c) eqn:Hc; [done|]. simpl.
  destruct (Py.rstrip s) as [|a r]; rewrite ?Hc; simpl; by rewrite Hc.
Qed.

Lemma strip_idemp s : Py.strip (Py.strip s) = Py.strip s.
Proof. unfold Py.strip. by rewrite lstrip_rstrip_lstrip, rstrip_idemp. Qed.

Lemma descriptor_stripped section child :
  match descriptor section child with
  | DType p_type => Py.strip p_type = p_type
  | DArgs args => Forall (fun a => Py.strip a = a) args
  end.
Proof.
  assert (∀ child,
    Forall (fun a => Py.strip a = a)
      (map (fun arg =>
              match text arg with
              | Some s => if Py.truthy s then Py.strip s else ""
              | None => ""
              end) (findall "Arg" child))) as Hargs.
  { intros c. apply Forall_forall. intros a (arg & -> & _)%list_elem_of_fmap.
    destruct (text arg) as [s|]; [|done].
    destruct (Py.truthy s); [apply strip_idemp|done]. }
  destruct section; simpl; try apply Hargs.
  destruct (find "Type" child) as [t|]; [|done].
  destruct (text t) as [s|]; [|done].
  destruct (Py.truthy s); [apply strip_idemp|done].
Qed.

(** X5. The descriptors of a result have the shape of their section and
    carry no white space around their type tags: an entry of [Properties]
    is a type whose tag is stripped; an entry of a method section is an
    argument list that is not empty and whose tags are all stripped. *)
Theorem descriptor_shapes fs fuel base_path def_path visited r visited' out
    section n d :
  collect_methods fs fuel base_path def_path visited = Some (r, visited', out) →
  getitem r section !! n = Some d →
  match section with
  | Properties => ∃ p_type, d = DType p_type ∧ Py.strip p_type = p_type
  | _ =>
      ∃ args, d = DArgs args ∧ args ≠ [] ∧ Forall (fun a => Py.strip a = a) args
  end.
Proof.
  intros Hrun Hd.
  apply (collect_methods_declared fs _ _ _ _ _ _ _ Hrun) in Hd
    as (path & root & child & _ & _ & _ & Hargs & _ & ->).
  pose proof (descriptor_stripped section child) as Hstripped.
  assert (∀ f : Element → string, map f (findall "Arg" child) ≠ []) as Hne.
  { intros f Hnil. apply map_eq_nil in Hnil. unfold arg_count in Hargs.
    by rewrite Hnil in Hargs. }
  destruct section; simpl in *; eauto.
Qed.

Lemma descriptor_shapes_witness :
  ∃ args,
    DArgs ["INT32"; "STRING"] = DArgs args ∧ args ≠ []
    ∧ Forall (fun a => Py.strip a = a) args.
Proof.
  apply (descriptor_shapes Vehicle.fs 2 "/game" (entity_path "Vehicle") []
           Vehicle.result [] Vehicle.out ClientMethods "takeDamage"
           (DArgs ["INT32"; "STRING"])).
  - vm_compute. reflexivity.
  - vm_compute. reflexivity.
Defined.

(** ** A definition without members *)

Lemma fold_add_decl_excluded section decls d :
  Forall (fun child => is_excluded child = true) decls →
  fold_left (add_decl section) decls d = d.
Proof.
  induction 1 as [|child decls Hchild _ IH]; [done|].
  cbn [fold_left]. unfold add_decl at 2. by rewrite Hchild.
Qed.

(** X6. A definition that lists no interface and whose declarations, if it
    has any, are all excluded gives four empty dictionaries: the call
    returns them with a single unit of fuel, whatever the other files are,
    and leaves the list as it was. *)
Theorem empty_definition fs fuel base_path def_path visited root :
  def_path ∉ visited →
  parse fs def_path = inr root →
  interfaces_of root = [] →
  (∀ section,
     Forall (fun child => is_excluded child = true) (local_decls section root)) →
  ∃ out,
    collect_methods fs (S fuel) base_path def_path visited =
    Some (empty_results, visited, out).
Proof.
  intros Hnew Hparse Hifaces Hdecls.
  rewrite (collect_methods_parsed_S fs _ _ _ _ root Hnew Hparse), Hifaces.
  cbn [implements_loop]. unfold ret. rewrite removelast_last.
  eexists. do 3 f_equal. apply results_eq. intros section.
  by rewrite getitem_local_definitions, fold_add_decl_excluded.
Qed.

Lemma empty_definition_witness :
  ∃ out,
    collect_methods Tank.fs 1 "/game" (interface_path "Shared") [entity_path "Tank"] =
    Some (empty_results, [entity_path "Tank"], out).
Proof.
  apply (empty_definition Tank.fs 0 "/game" (interface_path "Shared")
           [entity_path "Tank"]
           (Elem "root" None [Elem "Properties" None [Tank.health]])).
  - not_in_list.
  - vm_compute. reflexivity.
  - reflexivity.
  - intros section. destruct section; vm_compute; repeat constructor.
Defined.

(** ** The entity types and the loop of [main] *)

Lemma fst_enumerate_from {A} (l : list A) start :
  (imap (fun i x => (start + i, x)) l).*1 = seq start (length l).
Proof.
  revert start. induction l as [|x l IH]; intros start; [done|].
  rewrite imap_cons. cbn [fmap list_fmap fst length seq]. rewrite Nat.add_0_r.
  f_equal. rewrite <- IH. f_equal. apply imap_ext. intros i y _. simpl.
  f_equal. lia.
Qed.

Lemma fst_enumerate {A} (l : list A) : (enumerate l).*1 = seq 0 (length l).
Proof. apply (fst_enumerate_from l 0). Qed.

Lemma snd_enumerate {A} (l : list A) : (enumerate l).*2 = l.
Proof.
  unfold enumerate.
  assert (∀ f : nat → nat, (imap (fun i x => (f i, x)) l).*2 = l) as H.
  { induction l as [|x l IH]; intros f; [done|].
    rewrite imap_cons. cbn [fmap list_fmap snd]. f_equal.
    apply (IH (f ∘ S)). }
  apply (H (fun i => i)).
Qed.

Lemma length_enumerate {A} (l : list A) : length (enumerate l) = length l.
Proof. unfold enumerate. apply length_imap. Qed.

Lemma lookup_enumerate {A} (l : list A) i :
  enumerate l !! i = pair i <$> l !! i.
Proof. unfold enumerate. apply list_lookup_imap. Qed.

Lemma elem_of_enumerate {A} (l : list A) i x :
  (i, x) ∈ enumerate l ↔ l !! i = Some x.
Proof.
  rewrite list_elem_of_lookup. split.
  - intros [j Hj]. rewrite lookup_enumerate in Hj.
    destruct (l !! j) eqn:Hl; simplify_eq/=. done.
  - intros Hl. exists i. by rewrite lookup_enumerate, Hl.
Qed.

Lemma found_path_truthy fs base_path filename search_subdirs p :
  (find_file fs base_path filename search_subdirs).1 = Some p →
  Py.truthy filename = true →
  Py.truthy p = true.
Proof.
  unfold find_file.
  pose proof (find_first (exists_ fs)
    (candidates (posixpath.normpath base_path) filename search_subdirs)) as Hfirst.
  destruct (List.find _ _) as [q|]; [|done]. intros [= ->] Hname.
  destruct Hfirst as (before & after & Hl & _ & _).
  assert (p ∈ candidates (posixpath.normpath base_path) filename search_subdirs)
    as [x ->]%candidates_end.
  { rewrite Hl. apply elem_of_app. right. left. }
  by apply truthy_append.
Qed.

(** X7. [parse_entities_xml] numbers the entity types by position. When
    it returns, [entities.xml] was found and parsed, the names are the
    tags of the children of the [ClientServerEntities] element in document
    order (none when there is no such element), and the identifier of the
    [i]-th of them is [i]: the identifiers are [0] to [n - 1] without
    repetition. It raises exactly when the file that was found does not
    parse, and leaves through [sys.exit(1)] exactly when no candidate path
    exists. *)
Theorem entity_ids_are_positions fs base_path outcome out :
  parse_entities_xml fs base_path = (outcome, out) →
  match outcome with
  | Returned entities =>
      (∃ path root,
         (find_file fs base_path "entities.xml" []).1 = Some path
         ∧ parse fs path = inr root
         ∧ entities.*2 =
           tag <$> match cs_entities root with
                   | Some cs => children cs
                   | None => []
                   end)
      ∧ entities.*1 = seq 0 (length entities)
      ∧ NoDup entities.*1
      ∧ (∀ idx name, (idx, name) ∈ entities ↔ entities.*2 !! idx = Some name)
  | Raised e =>
      ∃ path,
        (find_file fs base_path "entities.xml" []).1 = Some path
        ∧ parse fs path = inl e
  | SystemExit code =>
      code = 1
      ∧ Forall (fun q => fs !! q = None)
          (candidates (posixpath.normpath base_path) "entities.xml" [])
  end.
Proof.
  unfold parse_entities_xml.
  destruct (find_file fs base_path "entities.xml" []) as [[path|] out0] eqn:Hfind;
    cbn [Py.truthy_opt negb].
  - assert (Py.truthy path = true) as ->.
    { apply (found_path_truthy fs base_path "entities.xml" []); [|done].
      by rewrite Hfind. }
    cbn [negb]. change (default "" (Some path)) with path.
    destruct (parse fs path) as [e|root] eqn:Hparse.
    { intros [= <- _]. by exists path. }
    fold (cs_entities root).
    assert (∀ tags : list string,
              (enumerate tags).*1 = seq 0 (length (enumerate tags))
              ∧ NoDup (enumerate tags).*1
              ∧ (∀ idx name,
                   (idx, name) ∈ enumerate tags ↔
                   (enumerate tags).*2 !! idx = Some name)) as Henum.
    { intros tags. rewrite fst_enumerate, length_enumerate, snd_enumerate.
      split_and!; [done|apply NoDup_seq|apply elem_of_enumerate]. }
    destruct (cs_entities root) as [cs|] eqn:Hcs; intros [= <- _].
    + split; [|apply Henum]. exists path, root. by rewrite Hcs, snd_enumerate.
    + split; [|apply (Henum [])]. exists path, root. by rewrite Hcs.
  - intros [= <- _]. split; [done|].
    unfold find_file in Hfind.
    pose proof (find_first (exists_ fs)
      (candidates (posixpath.normpath base_path) "entities.xml" [])) as Hfirst.
    destruct (List.find _ _); [done|].
    eapply Forall_impl; [done|]. intros q. by rewrite exists_false.
Qed.

Lemma entity_ids_are_positions_witness :
  (∃ path root,
     (find_file Client.fs "/games/WoT_EU" "entities.xml" []).1 = Some path
     ∧ parse Client.fs path = inr root
     ∧ [(0, "Account"); (1, "Avatar"); (2, "Vehicle")].*2 =
       tag <$> match cs_entities root with
               | Some cs => children cs
               | None => []
               end)
  ∧ [(0, "Account"); (1, "Avatar"); (2, "Vehicle")].*1 = seq 0 3
  ∧ NoDup [(0, "Account"); (1, "Avatar"); (2, "Vehicle")].*1
  ∧ (∀ idx name,
       (idx, name) ∈ [(0, "Account"); (1, "Avatar"); (2, "Vehicle")] ↔
       [(0, "Account"); (1, "Avatar"); (2, "Vehicle")].*2 !! idx = Some name).
Proof.
  apply (entity_ids_are_positions Client.fs "/games/WoT_EU"
           (Returned [(0, "Account"); (1, "Avatar"); (2, "Vehicle")])
           [Printed (DebugFound "entities.xml" "/games/WoT_EU/scripts/entities.xml");
            ParsingEntitiesFrom "/games/WoT_EU/scripts/entities.xml";
            DebugFoundEntity "Account" 0; DebugFoundEntity "Avatar" 1;
            DebugFoundEntity "Vehicle" 2]).
  vm_compute. reflexivity.
Defined.

Lemma entities_loop_source fs game_path entity_types full_data full_data' out
    ent_id e :
  entities_loop fs game_path entity_types full_data = Some (full_data', out) →
  full_data' !! ent_id = Some e →
  full_data !! ent_id = Some e
  ∨ ∃ ent_name p,
      (ent_id, ent_name) ∈ entity_types
      ∧ (get_def_path fs game_path ent_name).1 = Some p
      ∧ e = entity_json ent_id ent_name (resolve fs game_path p []).
Proof.
  revert full_data out.
  induction entity_types as [|[id0 name0] rest IH]; intros full_data out;
    cbn [entities_loop].
  { intros [= <- _] He. by left. }
  intros Hrun He.
  assert (∀ full out3,
            entities_loop fs game_path rest full = Some (full_data', out3) →
            full !! ent_id = Some e
            ∨ ∃ ent_name p,
                (ent_id, ent_name) ∈ (id0, name0) :: rest
                ∧ (get_def_path fs game_path ent_name).1 = Some p
                ∧ e = entity_json ent_id ent_name (resolve fs game_path p []))
    as Hrest.
  { intros full out3 Hloop.
    destruct (IH _ _ Hloop He) as [?|(name & p & Hin & Hp & ->)]; [by left|].
    right. exists name, p. split_and!; [by right|done..]. }
  destruct (get_def_path fs game_path name0) as [[p|] out1] eqn:Hdef.
  - destruct (Py.truthy p).
    + destruct (collect_methods fs (S (size fs)) game_path p [])
        as [[[data v] out2]|] eqn:Hdata; [|done].
      apply collect_methods_resolve in Hdata as [-> _].
      destruct (entities_loop fs game_path rest _) as [[full' out3]|] eqn:Hloop;
        [|done].
      injection Hrun as -> _.
      destruct (Hrest _ _ Hloop) as [Hins|?]; [|by right].
      destruct (decide (id0 = ent_id)) as [->|Hne].
      * rewrite lookup_insert_eq in Hins. injection Hins as <-.
        right. exists name0, p. rewrite Hdef. split_and!; [by left|done..].
      * rewrite lookup_insert_ne in Hins by done. by left.
    + destruct (entities_loop fs game_path rest _) as [[full' out3]|] eqn:Hloop;
        [|done].
      injection Hrun as -> _. eauto.
  - destruct (entities_loop fs game_path rest _) as [[full' out3]|] eqn:Hloop;
      [|done].
    injection Hrun as -> _. eauto.
Qed.

(** X8. The part of [main] that builds [full_data] always comes to an
    end, and never by an exception: it either leaves through
    [sys.exit(1)] or returns. When it returns, the version tag is the one
    [detect_game_version] gives, there is at least one entity type, and
    [full_data] has an entry under an identifier exactly when the entity
    type at that position has a definition file; the entry is the one
    built from the resolution of that file, under the name and the
    position of the entity type. *)
Theorem main_builds_full_data fs game_path :
  ∃ outcome out,
    main_entities fs game_path = Some (outcome, out)
    ∧ match outcome with
      | Raised _ => False
      | SystemExit code => code = 1
      | Returned (version_tag, full_data) =>
          version_tag = (detect_game_version fs game_path).1
          ∧ ∃ entity_types out',
              parse_entities_xml fs game_path = (Returned entity_types, out')
              ∧ entity_types ≠ []
              ∧ ∀ ent_id e,
                  full_data !! ent_id = Some e ↔
                  ∃ ent_name p,
                    entity_types.*2 !! ent_id = Some ent_name
                    ∧ (get_def_path fs game_path ent_name).1 = Some p
                    ∧ e = entity_json ent_id ent_name (resolve fs game_path p [])
      end.
Proof.
  unfold main_entities.
  destruct (detect_game_version fs game_path) as [version_tag out1].
  destruct (parse_entities_xml fs game_path) as [[entity_types|e|code] out2]
    eqn:Hparse.
  - pose proof Hparse as Hids.
    assert (NoDup entity_types.*1
            ∧ ∀ idx name, (idx, name) ∈ entity_types ↔
                          entity_types.*2 !! idx = Some name) as [Hnodup Hpos].
    { revert Hids. unfold parse_entities_xml.
      destruct (find_file fs game_path "entities.xml" []) as [path out0].
      destruct (negb (Py.truthy_opt path)); [done|].
      destruct (parse fs (default "" path)) as [?|root]; [done|].
      destruct (if bool_decide (tag root = "ClientServerEntities") then _ else _);
        intros [= <- _].
      - rewrite fst_enumerate, snd_enumerate.
        split; [apply NoDup_seq|apply elem_of_enumerate].
      - split; [constructor|]. intros idx name. split; [|done].
        intros Hin. by apply elem_of_nil in Hin. }
    destruct entity_types as [|et rest]; [by eexists _, _|].
    destruct (entities_loop_returns fs game_path (et :: rest) ∅)
      as [[full_data out3] Hloop].
    rewrite Hloop. eexists _, _. split; [done|]. cbn [fst].
    split; [done|]. exists (et :: rest), out2. split_and!; [done..|].
    intros ent_id e. split.
    + intros He.
      destruct (entities_loop_source _ _ _ _ _ _ _ _ Hloop He)
        as [Hempty|(name & p & Hin & Hp & ->)]; [by rewrite lookup_empty in Hempty|].
      exists name, p. by rewrite <- Hpos.
    + intros (name & p & Hname & Hp & ->).
      eapply entities_loop_lookup; [done..|by apply Hpos|done|].
      eapply found_path_truthy; [exact Hp|by destruct name].
  - by eexists _, _.
  - eexists _, _. split; [done|].
    revert Hparse. unfold parse_entities_xml.
    destruct (find_file fs game_path "entities.xml" []) as [path out0].
    destruct (negb (Py.truthy_opt path)); [by intros [= <- _]|].
    destruct (parse fs (default "" path)) as [?|root]; [done|].
    by destruct (if bool_decide (tag root = "ClientServerEntities") then _ else _).
Qed.

(** ** The version tag *)

Lemma string_forall_append p s t :
  string_forall p (s +:+ t) = string_forall p s && string_forall p t.
Proof.
  induction s as [|c s IH]; [done|].
  rewrite append_cons. simpl. by rewrite IH, andb_assoc.
Qed.

Lemma sub_non_alnum_friendly s :
  string_forall file_friendly (PyStr.sub_non_alnum s) = true.
Proof.
  induction s as [|c s IH]; [done|]. simpl. rewrite IH, andb_true_r.
  unfold file_friendly. by destruct (PyStr.is_alnum c) eqn:Hc; [rewrite Hc|].
Qed.

Lemma sub_underscores_forall p s :
  string_forall p s = true → string_forall p (PyStr.sub_underscores s) = true.
Proof.
  induction s as [|c s IH]; [done|]. simpl.
  intros [Hc Hs]%andb_true_iff. specialize (IH Hs).
  destruct (PyStr.is_underscore c).
  - destruct s as [|c' s']; [by rewrite <- Hc; simpl; rewrite andb_true_r|].
    destruct (PyStr.is_underscore c'); [done|].
    cbn [string_forall]. by rewrite Hc, IH.
  - cbn [string_forall]. by rewrite Hc, IH.
Qed.

Lemma lstrip_underscores_forall p s :
  string_forall p s = true → string_forall p (PyStr.lstrip_underscores s) = true.
Proof.
  induction s as [|c s IH]; [done|]. simpl.
  intros H. destruct (PyStr.is_underscore c); [|done].
  apply IH. by apply andb_true_iff in H as [_ ?].
Qed.

Lemma rstrip_underscores_forall p s :
  string_forall p s = true → string_forall p (PyStr.rstrip_underscores s) = true.
Proof.
  induction s as [|c s IH]; [done|]. simpl.
  intros [Hc Hs]%andb_true_iff. specialize (IH Hs).
  destruct (PyStr.rstrip_underscores s) as [|a r].
  - destruct (PyStr.is_underscore c); [done|]. simpl. by rewrite Hc.
  - cbn [string_forall] in *. by rewrite Hc, IH.
Qed.

Lemma no_double_underscore_cons c c' s :
  no_double_underscore (String c (String c' s)) =
  negb (PyStr.is_underscore c && PyStr.is_underscore c')
  && no_double_underscore (String c' s).
Proof. done. Qed.

Lemma sub_underscores_no_double s :
  no_double_underscore (PyStr.sub_underscores s) = true.
Proof.
  induction s as [|c s IH]; [done|]. simpl.
  destruct (PyStr.is_underscore c) eqn:Hc.
  - destruct s as [|c' s']; [done|].
    destruct (PyStr.is_underscore c') eqn:Hc'; [done|].
    revert IH. simpl. rewrite Hc'. intros IH.
    by rewrite Hc', andb_false_r, IH.
  - destruct (PyStr.sub_underscores s) as [|a r]; [done|].
    by rewrite no_double_underscore_cons, Hc, IH.
Qed.

Lemma no_double_underscore_tail c s :
  no_double_underscore (String c s) = true → no_double_underscore s = true.
Proof.
  destruct s as [|c' s']; [done|]. rewrite no_double_underscore_cons.
  by intros [_ ?]%andb_true_iff.
Qed.

Lemma lstrip_underscores_no_double s :
  no_double_underscore s = true →
  no_double_underscore (PyStr.lstrip_underscores s) = true.
Proof.
  induction s as [|c s IH]; [done|]. intros H.
  cbn [PyStr.lstrip_underscores].
  destruct (PyStr.is_underscore c); [|done].
  by apply IH, (no_double_underscore_tail c).
Qed.

Lemma rstrip_underscores_no_double s :
  no_double_underscore s = true →
  no_double_underscore (PyStr.rstrip_underscores s) = true.
Proof.
  induction s as [|c s IH]; [done|]. intros H.
  pose proof (IH (no_double_underscore_tail c s H)) as IH'. simpl.
  destruct (PyStr.rstrip_underscores s) as [|a r] eqn:Hr.
  - by destruct (PyStr.is_underscore c).
  - rewrite no_double_underscore_cons, IH', andb_true_r.
    destruct s as [|c' s']; [done|].
    rewrite no_double_underscore_cons in H. apply andb_true_iff in H as [H _].
    assert (a = c') as ->; [|done].
    revert Hr. simpl.
    destruct (PyStr.rstrip_underscores s'); [|by intros [= <- _]].
    destruct (PyStr.is_underscore c'); [done|by intros [= <- _]].
Qed.

Lemma prefix_underscore c s :
  String.prefix "_" (String c s) = PyStr.is_underscore c.
Proof.
  cbn [String.prefix]. unfold PyStr.is_underscore.
  destruct (ascii_dec "_" c) as [<-|Hne]; [by destruct s|].
  symmetry. apply Ascii.eqb_neq. congruence.
Qed.

Lemma rstrip_underscores_cons c s :
  PyStr.rstrip_underscores (String c s) =
  match PyStr.rstrip_underscores s with
  | "" => if PyStr.is_underscore c then "" else String c ""
  | r => String c r
  end.
Proof. done. Qed.

Lemma lstrip_underscores_head s :
  Py.startswith "_" (PyStr.lstrip_underscores s) = false.
Proof.
  induction s as [|c s IH]; [done|]. cbn [PyStr.lstrip_underscores].
  destruct (PyStr.is_underscore c) eqn:Hc; [done|].
  unfold Py.startswith. by rewrite prefix_underscore.
Qed.

Lemma rstrip_underscores_head s :
  Py.startswith "_" s = false →
  Py.startswith "_" (PyStr.rstrip_underscores s) = false.
Proof.
  destruct s as [|c s]; [done|]. unfold Py.startswith.
  rewrite prefix_underscore, rstrip_underscores_cons. intros Hc.
  destruct (PyStr.rstrip_underscores s).
  - rewrite Hc. by rewrite prefix_underscore.
  - by rewrite prefix_underscore.
Qed.

Lemma rstrip_underscores_last s :
  Py.endswith "_" (PyStr.rstrip_underscores s) = false.
Proof.
  unfold Py.endswith.
  assert (∀ t acc,
            String.prefix "_" (String.rev_app (PyStr.rstrip_underscores t) acc) =
            match PyStr.rstrip_underscores t with
            | "" => String.prefix "_" acc
            | _ => false
            end) as H.
  { induction t as [|c t IH]; intros acc; [done|].
    rewrite rstrip_underscores_cons.
    destruct (PyStr.rstrip_underscores t) as [|a r] eqn:Hr.
    - destruct (PyStr.is_underscore c) eqn:Hc; [done|].
      cbn [String.rev_app]. by rewrite prefix_underscore.
    - cbn [String.rev_app]. specialize (IH (String c acc)).
      cbn [String.rev_app] in IH. done. }
  change (String.rev "_") with "_".
  unfold String.rev. rewrite H. by destruct (PyStr.rstrip_underscores s).
Qed.

(** X9. The tag [detect_game_version] returns is made for a file name: it
    is one of the seven prefixes [wot_<region>_v] and [wot_v] followed by
    the sanitised version, and every character of it is an ASCII letter, a
    digit or an underscore, whatever [version.xml] holds and whether it is
    there or not. The sanitised version has no two underscores in a row
    and neither starts nor ends with one. *)
Theorem version_tag_is_file_friendly fs base_path :
  string_forall file_friendly (detect_game_version fs base_path).1 = true
  ∧ ∃ prefix safe_ver,
      (detect_game_version fs base_path).1 = prefix +:+ safe_ver
      ∧ prefix ∈ tag_prefixes
      ∧ no_double_underscore safe_ver = true
      ∧ Py.startswith "_" safe_ver = false
      ∧ Py.endswith "_" safe_ver = false.
Proof.
  unfold detect_game_version.
  destruct (find_file fs base_path "version.xml" []) as [v_path out].
  match goal with
  | |- context [PyStr.sub_non_alnum ?v] => generalize v
  end.
  intros version.
  set (safe_ver := PyStr.strip_underscores
                     (PyStr.sub_underscores (PyStr.sub_non_alnum version))).
  assert (string_forall file_friendly safe_ver = true) as Hfriendly.
  { apply rstrip_underscores_forall, lstrip_underscores_forall,
      sub_underscores_forall, sub_non_alnum_friendly. }
  assert (no_double_underscore safe_ver = true
          ∧ Py.startswith "_" safe_ver = false
          ∧ Py.endswith "_" safe_ver = false) as Hsafe.
  { split_and!.
    - apply rstrip_underscores_no_double, lstrip_underscores_no_double,
        sub_underscores_no_double.
    - apply rstrip_underscores_head, lstrip_underscores_head.
    - apply rstrip_underscores_last. }
  assert (∀ prefix,
            prefix ∈ tag_prefixes →
            string_forall file_friendly prefix = true →
            string_forall file_friendly (prefix +:+ safe_ver) = true
            ∧ ∃ prefix' safe_ver',
                prefix +:+ safe_ver = prefix' +:+ safe_ver'
                ∧ prefix' ∈ tag_prefixes
                ∧ no_double_underscore safe_ver' = true
                ∧ Py.startswith "_" safe_ver' = false
                ∧ Py.endswith "_" safe_ver' = false) as Hprefix.
  { intros prefix Hin Hp. split.
    - by rewrite string_forall_append, Hp, Hfriendly.
    - by exists prefix, safe_ver. }
  repeat match goal with
         | |- context [if Py.contains ?a ?b then _ else _] =>
             destruct (Py.contains a b)
         end;
    cbn [negb bool_decide decide_rel fst];
    match goal with
    | |- context [?p +:+ ?r +:+ "_v" +:+ safe_ver] =>
        change (p +:+ r +:+ "_v" +:+ safe_ver)
          with ((p +:+ r +:+ "_v") +:+ safe_ver)
    | _ => idtac
    end;
    apply Hprefix; (vm_compute; by repeat constructor).
Qed.

(** ** Names and indices *)

Lemma size_map_seq {A} start (xs : list A) :
  size (map_seq start xs : gmap nat A) = length xs.
Proof.
  revert start. induction xs as [|x xs IH]; intros start; [done|].
  rewrite map_seq_cons, map_size_insert_None by apply map_seq_cons_disjoint.
  by rewrite IH.
Qed.

Lemma StronglySorted_lookup_lt {A} (R : relation A) l i j x y :
  StronglySorted R l → i < j → l !! i = Some x → l !! j = Some y → R x y.
Proof.
  intros Hsorted. revert i j.
  induction Hsorted as [|a l _ IH Hall]; intros i j Hij Hi Hj; [done|].
  destruct j as [|j]; [lia|]. destruct i as [|i]; simpl in *.
  - injection Hi as <-. rewrite Forall_forall in Hall.
    apply Hall. by eapply list_elem_of_lookup_2.
  - apply (IH i j); [lia|done..].
Qed.

(** X10. The indexed dictionary holds the members of the dictionary it is
    made from, each of them once: a name has a descriptor in the one
    exactly when some index carries the name with that descriptor in the
    other, no name is under two indices, the two have the same size, and
    a smaller index carries a name that comes strictly before in code
    point order. *)
Theorem indexed_dict_keeps_members (data_dict : gmap string Descriptor) :
  (∀ k d,
     data_dict !! k = Some d ↔
     ∃ i, to_indexed_dict data_dict !! i = Some (mkEntry k d))
  ∧ (∀ i j e e',
       to_indexed_dict data_dict !! i = Some e →
       to_indexed_dict data_dict !! j = Some e' →
       name e = name e' → i = j)
  ∧ size (to_indexed_dict data_dict) = size data_dict
  ∧ (∀ i j e e',
       i < j →
       to_indexed_dict data_dict !! i = Some e →
       to_indexed_dict data_dict !! j = Some e' →
       String.le (name e) (name e') ∧ name e ≠ name e').
Proof.
  assert (NoDup (sorted (keys data_dict))) as Hnodup.
  { rewrite sorted_Permutation. apply NoDup_keys. }
  assert (∀ i e,
            to_indexed_dict data_dict !! i = Some e →
            sorted (keys data_dict) !! i = Some (name e)
            ∧ data_dict !! name e = Some (details e)) as Hentry.
  { intros i e. rewrite lookup_to_indexed_dict.
    destruct (sorted (keys data_dict) !! i) as [k|] eqn:Hk; [|done].
    intros [= <-]. split; [done|]. simpl.
    apply lookup_lookup_total, elem_of_keys.
    rewrite <- sorted_Permutation. by eapply list_elem_of_lookup_2. }
  split_and!.
  - intros k d. split.
    + intros Hd.
      assert (k ∈ sorted (keys data_dict)) as [i Hi]%list_elem_of_lookup_1.
      { rewrite sorted_Permutation. apply elem_of_keys. by exists d. }
      exists i. rewrite lookup_to_indexed_dict, Hi. simpl.
      by rewrite (lookup_total_correct _ _ _ Hd).
    + intros [i Hi]. by apply Hentry in Hi as [_ ?].
  - intros i j e e' [Hi _]%Hentry [Hj _]%Hentry Hname. rewrite <- Hname in Hj.
    by eapply NoDup_lookup.
  - unfold to_indexed_dict, enumerate.
    rewrite (list_to_map_enumerate _ _ 0), size_map_seq, length_fmap.
    rewrite sorted_Permutation. unfold keys.
    by rewrite length_fmap, length_map_to_list.
  - intros i j e e' Hij [Hi _]%Hentry [Hj _]%Hentry. split.
    + by eapply (StronglySorted_lookup_lt String.le);
        [apply sorted_StronglySorted|..].
    + intros Hname. rewrite <- Hname in Hj.
      pose proof (NoDup_lookup _ _ _ _ Hnodup Hi Hj). lia.
Qed.

(** ** The version tag without a version *)

(** X11. When no [version.xml] is found, or the file found does not parse,
    or its root is not a [version] element with text, the version is
    [unknown]: the tag is one of the seven prefixes followed by [unknown],
    and never the [unknown_version] the docstring announces. *)
Theorem version_tag_fallback fs base_path :
  (∀ p root t,
     (find_file fs base_path "version.xml" []).1 = Some p →
     parse fs p = inr root → tag root = "version" → text root = Some t →
     t = "") →
  (∃ prefix,
     prefix ∈ tag_prefixes
     ∧ (detect_game_version fs base_path).1 = prefix +:+ "unknown")
  ∧ (detect_game_version fs base_path).1 ≠ "unknown_version".
Proof.
  intros Hno.
  assert (∃ prefix,
            prefix ∈ tag_prefixes
            ∧ (detect_game_version fs base_path).1 = prefix +:+ "unknown")
    as (prefix & Hin & Htag).
  { unfold detect_game_version.
    destruct (find_file fs base_path "version.xml" []) as [v_path out].
    assert (match v_path with
            | Some p =>
                if Py.truthy p then
                  match parse fs p with
                  | inr root =>
                      match text root with
                      | Some t =>
                          if bool_decide (tag root = "version") && Py.truthy t
                          then Py.strip t else "unknown"
                      | None => "unknown"
                      end
                  | inl _ => "unknown"
                  end
                else "unknown"
            | None => "unknown"
            end = "unknown") as ->.
    { destruct v_path as [p|]; [|done]. destruct (Py.truthy p); [|done].
      destruct (parse fs p) as [e|root] eqn:Hparse; [done|].
      destruct (text root) as [t|] eqn:Ht; [|done].
      case_bool_decide as Htag; [|done].
      by rewrite (Hno p root t eq_refl Hparse Htag Ht). }
    repeat match goal with
           | |- context [if Py.contains ?a ?b then _ else _] =>
               destruct (Py.contains a b)
           end;
      first
        [ by exists "wot_eu_v"; split; [repeat constructor|vm_compute]
        | by exists "wot_na_v"; split; [repeat constructor|vm_compute]
        | by exists "wot_ru_v"; split; [repeat constructor|vm_compute]
        | by exists "wot_asia_v"; split; [repeat constructor|vm_compute]
        | by exists "wot_cn_v"; split; [repeat constructor|vm_compute]
        | by exists "wot_ct_v"; split; [repeat constructor|vm_compute]
        | by exists "wot_v"; split; [repeat constructor|vm_compute] ]. }
  split; [by exists prefix|]. rewrite Htag.
  unfold tag_prefixes in Hin.
  repeat (apply elem_of_cons in Hin as [->|Hin]); [done..|].
  by apply elem_of_nil in Hin.
Qed.

Lemma version_tag_fallback_witness :
  (∃ prefix,
     prefix ∈ tag_prefixes
     ∧ (detect_game_version Tank.fs "/game").1 = prefix +:+ "unknown")
  ∧ (detect_game_version Tank.fs "/game").1 ≠ "unknown_version".
Proof.
  apply (version_tag_fallback Tank.fs "/game").
  intros p root t Hfound. vm_compute in Hfound. discriminate Hfound.
Defined.

(** ** The lines a resolution prints *)

Lemma found_path_exists fs base_path filename search_subdirs p :
  (find_file fs base_path filename search_subdirs).1 = Some p →
  is_Some (fs !! p).
Proof.
  unfold find_file.
  pose proof (find_first (exists_ fs)
    (candidates (posixpath.normpath base_path) filename search_subdirs)) as Hfirst.
  destruct (List.find _ _) as [q|]; [|done]. intros [= ->].
  destruct Hfirst as (before & after & _ & Hp & _). by apply exists_true.
Qed.

Lemma find_file_out fs base_path filename search_subdirs :
  Forall (about_existing_file fs)
    (find_file fs base_path filename search_subdirs).2.
Proof.
  unfold find_file. destruct (List.find _ _); by repeat constructor.
Qed.

Lemma process_child_out (Q : Event → Prop) def_path section st child :
  (∀ n k b, Q (DebugProcessing n k b)) →
  Forall Q st.2 → Forall Q (process_child def_path section st child).2.
Proof.
  intros HQ. destruct st as [d out]. unfold process_child. simpl. intros Hout.
  destruct (_ && _), (negb _); simpl; try done;
    apply Forall_app; split; by repeat constructor.
Qed.

Lemma local_definitions_out (Q : Event → Prop) def_path root results :
  (∀ n k b, Q (DebugProcessing n k b)) →
  Forall Q (local_definitions def_path root results).2.
Proof.
  intros HQ. unfold local_definitions.
  assert (∀ decls section st,
            Forall Q st.2 →
            Forall Q (fold_left (process_child def_path section) decls st).2)
    as Hchildren.
  { induction decls as [|c decls IH]; intros section st Hst; [done|].
    cbn [fold_left]. by apply IH, process_child_out. }
  assert (∀ sections st,
            Forall Q st.2 →
            Forall Q (fold_left (process_section def_path root) sections st).2)
    as Hsections.
  { induction sections as [|k sections IH]; intros st Hst; [done|].
    cbn [fold_left]. apply IH. destruct st as [r out]. unfold process_section.
    destruct (find (key_name k) root) as [xml_section|]; [|done].
    pose proof (Hchildren (children xml_section) k (getitem r k, out) Hst) as H.
    by destruct (fold_left _ _ _). }
  by apply Hsections.
Qed.

Lemma implements_loop_out fs fuel base_path interfaces results visited x visited' out :
  (∀ p v r v' o,
     is_Some (fs !! p) →
     collect_methods fs fuel base_path p v = Some (r, v', o) →
     Forall (about_existing_file fs) o) →
  implements_loop fs (collect_methods fs fuel base_path) base_path interfaces
    results visited = Some (x, visited', out) →
  Forall (about_existing_file fs) out.
Proof.
  intros Hrec. revert results visited x visited' out.
  induction interfaces as [|i rest IH]; intros results visited x visited' out.
  { simpl. unfold ret. by intros [= _ _ <-]. }
  destruct (text i) as [t|] eqn:Ht.
  2:{ simpl. rewrite Ht. unfold ret. by intros [= _ _ <-]. }
  destruct (interface_def fs base_path i) as [p|] eqn:Hdef.
  - rewrite (implements_loop_found fs _ _ _ t p) by done.
    destruct (collect_methods fs fuel base_path p visited)
      as [[[inh v1] o1]|] eqn:Hcall; [|done].
    destruct (implements_loop _ _ _ rest _ _) as [[[y v2] o2]|] eqn:Hrest; [|done].
    intros [= _ _ <-]. rewrite !Forall_app. split_and!.
    + apply find_file_out.
    + eapply Hrec; [|done].
      unfold interface_def in Hdef. rewrite Ht in Hdef.
      destruct (get_def_path fs base_path (Py.strip t)).1 as [q|] eqn:Hq; [|done].
      destruct (Py.truthy q); [|done]. injection Hdef as <-.
      by eapply found_path_exists.
    + by eapply IH.
  - rewrite (implements_loop_not_found fs _ _ _ t) by done.
    destruct (implements_loop _ _ _ rest _ _) as [[[y v2] o2]|] eqn:Hrest; [|done].
    intros [= _ _ <-]. rewrite !Forall_app. split_and!.
    + apply find_file_out.
    + constructor; [by intros p e|by eapply IH].
Qed.

(** X12. A resolution that starts at a file that exists never reports a
    missing file: every error line it prints names a file that exists,
    and the failure it reports is not that the file was not found. The
    files it opens are the one it is given and those [get_def_path] has
    found. *)
Theorem errors_are_about_existing_files fs fuel base_path def_path visited
    r visited' out :
  is_Some (fs !! def_path) →
  collect_methods fs fuel base_path def_path visited = Some (r, visited', out) →
  Forall (about_existing_file fs) out.
Proof.
  revert def_path visited r visited' out.
  induction fuel as [|fuel IH]; intros def_path visited r visited' out Hfile;
    [done|].
  destruct (decide (def_path ∈ visited)) as [Hin|Hnew].
  { rewrite collect_methods_cycle by done. intros [= _ _ <-].
    constructor; [by intros q e|constructor]. }
  destruct (parse fs def_path) as [e|root] eqn:Hparse.
  - rewrite (collect_methods_parse_failure fs _ _ _ _ e) by done.
    intros [= _ _ <-]. constructor; [|constructor]. intros q e' [= <- <-].
    split; [done|]. intros ->. unfold parse in Hparse.
    destruct Hfile as [d Hd]. rewrite Hd in Hparse. by destruct d.
  - rewrite (collect_methods_parsed_S fs _ _ _ _ root) by done.
    destruct (implements_loop _ _ _ _ _ _) as [[[[r1 raised] v1] o]|] eqn:Hloop;
      [|done].
    assert (Forall (about_existing_file fs) o) as Ho.
    { eapply implements_loop_out; [|done]. intros p v r' v' o' Hp Hcall.
      by eapply IH. }
    assert (raised = None ∨ raised = Some AttributeError) as Hraised.
    { apply implements_loop_result in Hloop as (_ & -> & _).
      destruct (forallb has_text (interfaces_of root)); eauto. }
    destruct Hraised as [-> | ->]; intros [= _ _ <-]; apply Forall_app; split;
      try done.
    + apply local_definitions_out. by intros n k b q e.
    + constructor; [|constructor]. by intros q e [= <- <-].
Qed.

Lemma errors_are_about_existing_files_witness :
  Forall (about_existing_file Failures.fs)
    [DebugFound "Broken.def" (interface_path "Broken");
     ErrorFailedToParse (interface_path "Broken") ParseError;
     DebugCouldNotFind "Missing.def" "/game";
     WarningInterfaceNotFound "Missing";
     DebugFound "I.def" (interface_path "I")].
Proof.
  apply (errors_are_about_existing_files Failures.fs 2 "/game" (entity_path "F") []
           Failures.partial []).
  - vm_compute. eexists. reflexivity.
  - vm_compute. reflexivity.
Defined.

(** * Cycles and missing interfaces, in what a call returns *)

Lemma inherited_from_leads_back fs base_path visited interface :
  leads_back fs base_path visited interface = true →
  inherited_from fs base_path visited interface = empty_results.
Proof.
  unfold leads_back, inherited_from.
  destruct (interface_def fs base_path interface) as [p|]; [|done].
  intros Hin. rewrite resolve_unfold. unfold resolve_step. by rewrite Hin.
Qed.

Lemma merge_interfaces_skip fs base_path visited (skip : Element → bool)
    interfaces results :
  (∀ i, i ∈ interfaces → skip i = true →
        inherited_from fs base_path visited i = empty_results) →
  merge_interfaces fs base_path visited
    (filter (fun i => skip i = false) interfaces) results =
  merge_interfaces fs base_path visited interfaces results.
Proof.
  unfold merge_interfaces. revert results.
  induction interfaces as [|i rest IH]; intros results Hskip; [done|].
  rewrite filter_cons. cbn [fold_left].
  destruct (skip i) eqn:Hi.
  - rewrite decide_False by done.
    assert (i ∈ i :: rest) as Hhere by left.
    rewrite (Hskip i Hhere Hi), merge_inherited_empty.
    apply IH. intros j Hj. apply Hskip. by right.
  - rewrite decide_True by done. cbn [fold_left].
    apply IH. intros j Hj. apply Hskip. by right.
Qed.

Lemma merge_interfaces_without fs base_path visited before interface after results :
  inherited_from fs base_path visited interface = empty_results →
  merge_interfaces fs base_path visited (before ++ interface :: after) results =
  merge_interfaces fs base_path visited (before ++ after) results.
Proof.
  intros Hempty. unfold merge_interfaces. rewrite !fold_left_app.
  cbn [fold_left]. by rewrite Hempty, merge_inherited_empty.
Qed.

(** The members an interface returns are in the result of the definition
    that lists it. *)
Lemma interface_run_kept fs fuel fuel' base_path def_path visited r visited' out
    root interface p r' v' out' section n :
  collect_methods fs fuel base_path def_path visited = Some (r, visited', out) →
  def_path ∉ visited →
  parse fs def_path = inr root →
  forallb has_text (interfaces_of root) = true →
  interface ∈ interfaces_of root →
  interface_def fs base_path interface = Some p →
  collect_methods fs fuel' base_path p (visited ++ [def_path]) = Some (r', v', out') →
  is_Some (getitem r' section !! n) →
  is_Some (getitem r section !! n).
Proof.
  intros Hrun Hnew Hparse Htext Hin Hdef Hrun' Hn.
  rewrite (collect_methods_parsed fs _ _ _ _ _ _ _ root Hrun Hnew Hparse Htext).
  apply fold_add_decl_keeps, merge_interfaces_keeps. right.
  exists interface. split; [done|]. unfold inherited_from. rewrite Hdef.
  by apply collect_methods_resolve in Hrun' as [<- _].
Qed.

(** C5. Whatever the files are, cyclic or not, a call returns once it has
    as much fuel as there are files plus one, and no run with another
    amount of fuel returns anything else. A call for a definition that is
    on the list returns four empty dictionaries and prints the cycle line,
    which is not an error, and the loop of the caller goes on with the
    interfaces that follow, on the dictionaries it had. What the call for
    a definition returns is then its local declarations on top of the
    merge of its interfaces with those that lead back to the list left
    out: the call for such an interface returns nothing, and every member
    the call for any interface returns is in the result. *)
Theorem cycle_safety fs base_path def_path visited :
  is_Some (collect_methods fs (S (size fs)) base_path def_path visited)
  ∧ (∀ fuel x,
       collect_methods fs fuel base_path def_path visited = Some x →
       collect_methods fs (S (size fs)) base_path def_path visited = Some x)
  ∧ (def_path ∈ visited →
     ∀ fuel,
       collect_methods fs (S fuel) base_path def_path visited =
       Some (empty_results, visited, [CycleDetected def_path]))
  ∧ (def_path ∈ visited →
     ∀ fuel interface t rest results,
       text interface = Some t →
       interface_def fs base_path interface = Some def_path →
       implements_loop fs (collect_methods fs (S fuel) base_path) base_path
         (interface :: rest) results visited =
       match implements_loop fs (collect_methods fs (S fuel) base_path) base_path
               rest results visited with
       | Some (x, visited', out) =>
           Some (x, visited',
                 (get_def_path fs base_path (Py.strip t)).2
                 ++ [CycleDetected def_path] ++ out)
       | None => None
       end)
  ∧ (∀ fuel r visited' out root,
       collect_methods fs fuel base_path def_path visited = Some (r, visited', out) →
       def_path ∉ visited →
       parse fs def_path = inr root →
       forallb has_text (interfaces_of root) = true →
       (∀ section,
          getitem r section =
          fold_left (add_decl section) (local_decls section root)
            (getitem
               (merge_interfaces fs base_path (visited ++ [def_path])
                  (filter
                     (fun i =>
                        leads_back fs base_path (visited ++ [def_path]) i = false)
                     (interfaces_of root))
                  empty_results) section))
       ∧ (∀ interface p fuel' r' v' out',
            interface ∈ interfaces_of root →
            interface_def fs base_path interface = Some p →
            collect_methods fs fuel' base_path p (visited ++ [def_path]) =
              Some (r', v', out') →
            (p ∈ visited ++ [def_path] → r' = empty_results)
            ∧ (∀ section n,
                 is_Some (getitem r' section !! n) →
                 is_Some (getitem r section !! n)))).
Proof.
  split_and!.
  - apply collect_methods_enough.
  - intros fuel x Hrun.
    destruct (collect_methods_enough fs base_path def_path visited) as [x' Hx'].
    by rewrite Hx', (collect_methods_fuel_agree fs _ _ _ _ _ _ _ Hrun Hx').
  - intros Hin fuel. by apply collect_methods_cycle.
  - intros Hin fuel interface t rest results Ht Hdef.
    by apply implements_loop_cycle.
  - intros fuel r visited' out root Hrun Hnew Hparse Htext. split.
    + intros section.
      rewrite (collect_methods_parsed fs _ _ _ _ _ _ _ root Hrun Hnew Hparse Htext).
      rewrite merge_interfaces_skip; [done|].
      intros i _. apply inherited_from_leads_back.
    + intros interface p fuel' r' v' out' Hin Hdef Hrun'. split.
      * intros Hp. destruct fuel' as [|fuel']; [done|].
        rewrite collect_methods_cycle in Hrun' by done. by injection Hrun' as <-.
      * intros section n. by eapply interface_run_kept.
Qed.

Lemma cycle_safety_witness :
  collect_methods Cycle.fs 1 "/game" (entity_path "A")
    [entity_path "A"; interface_path "B"] =
    Some (empty_results, [entity_path "A"; interface_path "B"],
          [CycleDetected (entity_path "A")])
  ∧ is_Some (getitem Cycle.result ClientMethods !! "b")
  ∧ is_Some (getitem Cycle.result ClientMethods !! "c").
Proof.
  split.
  { apply (proj1 (proj2 (proj2
             (cycle_safety Cycle.fs "/game" (entity_path "A")
                [entity_path "A"; interface_path "B"])))).
    constructor. }
  destruct (cycle_safety Cycle.fs "/game" (entity_path "A") [])
    as (_ & _ & _ & _ & Hresult).
  destruct (Hresult 3 Cycle.result [] Cycle.out
              (Elem "root" None [implements ["B"; "C"]]))
    as [_ Hmembers].
  { vm_compute. reflexivity. }
  { apply not_elem_of_nil. }
  { vm_compute. reflexivity. }
  { reflexivity. }
  split.
  - apply (proj2 (Hmembers (Elem "Interface" (Some "B") []) (interface_path "B") 2
                    (setitem empty_results ClientMethods {[ "b" := DArgs ["INT32"] ]})
                    [entity_path "A"]
                    [DebugFound "A.def" (entity_path "A");
                     CycleDetected (entity_path "A")]
                    ltac:(left) ltac:(vm_compute; reflexivity)
                    ltac:(vm_compute; reflexivity))).
    vm_compute. eexists. reflexivity.
  - apply (proj2 (Hmembers (Elem "Interface" (Some "C") []) (interface_path "C") 1
                    (setitem empty_results ClientMethods {[ "c" := DArgs ["INT32"] ]})
                    [entity_path "A"] []
                    ltac:(right; left) ltac:(vm_compute; reflexivity)
                    ltac:(vm_compute; reflexivity))).
    vm_compute. eexists. reflexivity.
Defined.

Lemma find_file_no_error fs base_path filename search_subdirs q e :
  ErrorFailedToParse q e ∉ (find_file fs base_path filename search_subdirs).2.
Proof.
  unfold find_file. destruct (List.find _ _); simpl;
    by intros [=]%list_elem_of_singleton.
Qed.

Lemma local_definitions_no_error def_path root results q e :
  ErrorFailedToParse q e ∉ (local_definitions def_path root results).2.
Proof.
  intros Hin.
  pose proof (local_definitions_out (fun ev => ev ≠ ErrorFailedToParse q e)
                def_path root results) as Hout.
  rewrite Forall_forall in Hout. by eapply Hout.
Qed.

Lemma has_text_Some interface :
  has_text interface = true → ∃ t, text interface = Some t.
Proof.
  unfold has_text. intros [t Ht]%bool_decide_eq_true. by exists t.
Qed.

(** The loop prints the warning for an interface without file, once it
    gets to it. *)
Lemma implements_loop_warning fs rec base_path before interface t after
    results visited x visited' out :
  forallb has_text before = true →
  text interface = Some t →
  interface_def fs base_path interface = None →
  implements_loop fs rec base_path (before ++ interface :: after) results visited
    = Some (x, visited', out) →
  WarningInterfaceNotFound (Py.strip t) ∈ out.
Proof.
  intros Hbefore Ht Hdef. revert results visited x visited' out.
  induction before as [|b before IH]; intros results visited x visited' out.
  - cbn [app]. rewrite (implements_loop_not_found fs _ _ _ t) by done.
    destruct (implements_loop fs rec base_path after results visited)
      as [[[y v2] o2]|]; [|done].
    intros [= _ _ <-]. apply elem_of_app. right. left.
  - cbn [forallb] in Hbefore. apply andb_true_iff in Hbefore as [Hb Hbefore].
    apply has_text_Some in Hb as [tb Hb]. cbn [app].
    destruct (interface_def fs base_path b) as [p|] eqn:Hp.
    + rewrite (implements_loop_found fs _ _ _ tb p) by done.
      destruct (rec p visited) as [[[inh v1] o1]|]; [|done].
      destruct (implements_loop fs rec base_path _ _ v1)
        as [[[y v2] o2]|] eqn:Hrest; [|done].
      intros [= _ _ <-]. rewrite !elem_of_app. right. right. by eapply IH.
    + rewrite (implements_loop_not_found fs _ _ _ tb) by done.
      destruct (implements_loop fs rec base_path _ _ visited)
        as [[[y v2] o2]|] eqn:Hrest; [|done].
      intros [= _ _ <-]. rewrite !elem_of_app. right. right. by eapply IH.
Qed.

Lemma implements_loop_errors fs fuel base_path interfaces results visited
    x visited' out :
  (∀ p v r v' o,
     collect_methods fs fuel base_path p v = Some (r, v', o) →
     ∀ q e, ErrorFailedToParse q e ∈ o → q ∉ v) →
  implements_loop fs (collect_methods fs fuel base_path) base_path interfaces
    results visited = Some (x, visited', out) →
  ∀ q e, ErrorFailedToParse q e ∈ out → q ∉ visited.
Proof.
  intros Hrec. revert results x visited' out.
  induction interfaces as [|i rest IH]; intros results x visited' out.
  { simpl. unfold ret. intros [= _ _ <-] q e Hin. by apply elem_of_nil in Hin. }
  destruct (text i) as [t|] eqn:Ht.
  2:{ simpl. rewrite Ht. unfold ret. intros [= _ _ <-] q e Hin.
      by apply elem_of_nil in Hin. }
  destruct (interface_def fs base_path i) as [p|] eqn:Hdef.
  - rewrite (implements_loop_found fs _ _ _ t p) by done.
    destruct (collect_methods fs fuel base_path p visited)
      as [[[inh v1] o1]|] eqn:Hcall; [|done].
    pose proof (keeps_collect_methods fs _ _ _ _ _ _ _ Hcall) as ->.
    destruct (implements_loop _ _ _ rest _ _) as [[[y v2] o2]|] eqn:Hrest; [|done].
    intros [= _ _ <-] q e. rewrite !elem_of_app. intros [Hin|[Hin|Hin]].
    + by apply find_file_no_error in Hin.
    + by eapply Hrec.
    + by eapply IH.
  - rewrite (implements_loop_not_found fs _ _ _ t) by done.
    destruct (implements_loop _ _ _ rest _ _) as [[[y v2] o2]|] eqn:Hrest; [|done].
    intros [= _ _ <-] q e. rewrite elem_of_app, elem_of_cons.
    intros [Hin|[[=]|Hin]].
    + by apply find_file_no_error in Hin.
    + by eapply IH.
Qed.

(** An error line is about a definition that was not on the list when the
    call was made. *)
Lemma errors_not_on_list fs fuel base_path def_path visited r visited' out :
  collect_methods fs fuel base_path def_path visited = Some (r, visited', out) →
  ∀ q e, ErrorFailedToParse q e ∈ out → q ∉ visited.
Proof.
  revert def_path visited r visited' out.
  induction fuel as [|fuel IH]; intros def_path visited r visited' out; [done|].
  destruct (decide (def_path ∈ visited)) as [Hin|Hnew].
  { rewrite collect_methods_cycle by done.
    by intros [= _ _ <-] q e [=]%list_elem_of_singleton. }
  destruct (parse fs def_path) as [e0|root] eqn:Hparse.
  - rewrite (collect_methods_parse_failure fs _ _ _ _ e0) by done.
    by intros [= _ _ <-] q e [= -> _]%list_elem_of_singleton.
  - rewrite (collect_methods_parsed_S fs _ _ _ _ root) by done.
    destruct (implements_loop _ _ _ _ _ _) as [[[[r1 raised] v1] o]|] eqn:Hloop;
      [|done].
    assert (∀ q e, ErrorFailedToParse q e ∈ o → q ∉ visited) as Ho.
    { intros q e Hq.
      pose proof (implements_loop_errors fs _ _ _ _ _ _ _ _ IH Hloop q e Hq) as Hq'.
      intros Hv. apply Hq', elem_of_app. by left. }
    destruct raised as [e1|]; intros [= _ _ <-] q e; rewrite elem_of_app;
      intros [Hq|Hq]; try by eapply Ho.
    + by apply list_elem_of_singleton in Hq as [= -> _].
    + by apply local_definitions_no_error in Hq.
Qed.

(** C8. A definition is processed to the end although one of its
    interfaces has no definition file: the call prints the warning for
    that interface and no error for the definition, leaves the list as it
    was, and returns the local declarations on top of the merge of the
    other interfaces, those before and those after the missing one, every
    member that the call for one of them returns being in the result. The
    call returns, and the loop over the entity types runs to its end and
    gives every entity whose file is found the entry of its own
    resolution. *)
Theorem not_found_is_not_fatal fs fuel base_path def_path visited root
    before interface t after r visited' out :
  collect_methods fs fuel base_path def_path visited = Some (r, visited', out) →
  def_path ∉ visited →
  parse fs def_path = inr root →
  interfaces_of root = before ++ interface :: after →
  forallb has_text (interfaces_of root) = true →
  text interface = Some t →
  interface_def fs base_path interface = None →
  WarningInterfaceNotFound (Py.strip t) ∈ out
  ∧ (∀ e, ErrorFailedToParse def_path e ∉ out)
  ∧ visited' = visited
  ∧ (∀ section,
       getitem r section =
       fold_left (add_decl section) (local_decls section root)
         (getitem (merge_interfaces fs base_path (visited ++ [def_path])
                     (before ++ after) empty_results) section))
  ∧ (∀ other p fuel' r' v' out' section n,
       other ∈ before ++ after →
       interface_def fs base_path other = Some p →
       collect_methods fs fuel' base_path p (visited ++ [def_path]) =
         Some (r', v', out') →
       is_Some (getitem r' section !! n) →
       is_Some (getitem r section !! n))
  ∧ is_Some (collect_methods fs (S (size fs)) base_path def_path visited)
  ∧ every_entity_resolved fs.
Proof.
  intros Hrun Hnew Hparse Hifaces Htext Ht Hdef. split_and!.
  - destruct fuel as [|fuel]; [done|].
    rewrite (collect_methods_parsed_S fs _ _ _ _ root) in Hrun by done.
    destruct (implements_loop _ _ _ _ _ _) as [[[[r1 raised] v1] o]|] eqn:Hloop;
      [|done].
    rewrite Hifaces in Hloop, Htext.
    rewrite forallb_app in Htext. apply andb_true_iff in Htext as [Hbefore _].
    pose proof (implements_loop_warning fs _ _ _ _ _ _ _ _ _ _ _
                  Hbefore Ht Hdef Hloop) as Hw.
    destruct raised; injection Hrun as _ _ <-; apply elem_of_app; by left.
  - intros e He. destruct fuel as [|fuel]; [done|].
    rewrite (collect_methods_parsed_S fs _ _ _ _ root) in Hrun by done.
    destruct (implements_loop _ _ _ _ _ _) as [[[[r1 raised] v1] o]|] eqn:Hloop;
      [|done].
    pose proof (implements_loop_errors fs _ _ _ _ _ _ _ _
                  (errors_not_on_list fs fuel base_path) Hloop) as Ho.
    apply implements_loop_result in Hloop as (_ & -> & _).
    rewrite Htext in Hrun. injection Hrun as _ _ <-.
    apply elem_of_app in He as [He|He].
    + apply (Ho _ _ He), elem_of_app. right. left.
    + by apply local_definitions_no_error in He.
  - by eapply keeps_collect_methods.
  - intros section.
    rewrite (collect_methods_parsed fs _ _ _ _ _ _ _ root Hrun Hnew Hparse Htext).
    rewrite Hifaces, merge_interfaces_without; [done|].
    unfold inherited_from. by rewrite Hdef.
  - intros other p fuel' r' v' out' section n Hother Hp Hrun'.
    eapply interface_run_kept; [done..| |done|done].
    rewrite Hifaces. apply elem_of_app in Hother as [?|?];
      apply elem_of_app; [by left|right; by right].
  - apply collect_methods_enough.
  - apply entities_all_resolved.
Qed.

Lemma not_found_is_not_fatal_witness :
  WarningInterfaceNotFound (Py.strip "Missing") ∈
    [DebugFound "Broken.def" (interface_path "Broken");
     ErrorFailedToParse (interface_path "Broken") ParseError;
     DebugCouldNotFind "Missing.def" "/game";
     WarningInterfaceNotFound "Missing";
     DebugFound "I.def" (interface_path "I")]
  ∧ (∀ e,
       ErrorFailedToParse (entity_path "F") e ∉
         [DebugFound "Broken.def" (interface_path "Broken");
          ErrorFailedToParse (interface_path "Broken") ParseError;
          DebugCouldNotFind "Missing.def" "/game";
          WarningInterfaceNotFound "Missing";
          DebugFound "I.def" (interface_path "I")])
  ∧ [] = @nil string
  ∧ (∀ section,
       getitem Failures.partial section =
       fold_left (add_decl section)
         (local_decls section
            (Elem "root" None [implements ["Broken"; "Missing"; "I"]]))
         (getitem (merge_interfaces Failures.fs "/game" ([] ++ [entity_path "F"])
                     ([Elem "Interface" (Some "Broken") []]
                      ++ [Elem "Interface" (Some "I") []])
                     empty_results) section))
  ∧ (∀ other p fuel' r' v' out' section n,
       other ∈ [Elem "Interface" (Some "Broken") []]
               ++ [Elem "Interface" (Some "I") []] →
       interface_def Failures.fs "/game" other = Some p →
       collect_methods Failures.fs fuel' "/game" p ([] ++ [entity_path "F"]) =
         Some (r', v', out') →
       is_Some (getitem r' section !! n) →
       is_Some (getitem Failures.partial section !! n))
  ∧ is_Some (collect_methods Failures.fs (S (size Failures.fs)) "/game"
               (entity_path "F") [])
  ∧ every_entity_resolved Failures.fs.
Proof.
  apply (not_found_is_not_fatal Failures.fs 2 "/game" (entity_path "F") []
           (Elem "root" None [implements ["Broken"; "Missing"; "I"]])
           [Elem "Interface" (Some "Broken") []]
           (Elem "Interface" (Some "Missing") []) "Missing"
           [Elem "Interface" (Some "I") []]).
  - vm_compute. reflexivity.
  - apply not_elem_of_nil.
  - vm_compute. reflexivity.
  - reflexivity.
  - reflexivity.
  - reflexivity.
  - vm_compute. reflexivity.
Defined.
